(** * smooth_edges.py: chroma-key mask, edge smoothing and compositing

    A shallow embedding of [src/assets/Alien/smooth_edges.py].  The script
    classifies every pixel of an image against the magenta key colour,
    smooths the resulting mask with Pillow's resize and Gaussian blur, and
    optionally composites the cut-out over a solid background.

    Python integers are [Z]; image dimensions, which Pillow keeps
    non-negative, are [nat]; the blur radius is an IEEE double.  Pixel
    buffers are row-major lists updated in place with stdpp's list insert.
    The Pillow routines whose numeric behaviour the script does not fix
    (Lanczos resize, Gaussian blur, the "over" operator, colour-string
    parsing) are interfaces; their contracts are stated as separate law
    classes and a reference implementation shows the laws are satisfiable. *)

From Stdlib Require Import ZArith Floats Ascii Lia.
From stdpp Require Import base option list strings.

Local Open Scope Z_scope.

(** ** Pixels and image buffers *)

(** A mode "L" pixel is an int, an "RGB" pixel a 3-tuple, an "RGBA" pixel a
    4-tuple. *)
Definition L : Type := Z.
Definition RGB : Type := Z * Z * Z.
Definition RGBA : Type := Z * Z * Z * Z.

(** [px[0]], [px[1]], [px[2]] for the pixel types that have three colour
    bands. *)
Class Pixel (P : Type) := {
  px_0 : P -> Z;
  px_1 : P -> Z;
  px_2 : P -> Z
}.

#[global] Instance RGB_Pixel : Pixel RGB := {|
  px_0 := fun '(r, _, _) => r;
  px_1 := fun '(_, g, _) => g;
  px_2 := fun '(_, _, b) => b
|}.

#[global] Instance RGBA_Pixel : Pixel RGBA := {|
  px_0 := fun '(r, _, _, _) => r;
  px_1 := fun '(_, g, _, _) => g;
  px_2 := fun '(_, _, b, _) => b
|}.

(** A band value as Pillow stores it: one byte. *)
Definition valid_band (c : Z) : Prop := 0 <= c <= 255.

Definition valid_pixel {P} `{Pixel P} (px : P) : Prop :=
  valid_band (px_0 px) /\ valid_band (px_1 px) /\ valid_band (px_2 px).

Record Image (P : Type) := mkImage {
  width : nat;
  height : nat;
  data : list P          (* row-major: pixel (x, y) is item y * width + x *)
}.
Arguments mkImage {P} _ _ _.
Arguments width {P} _.
Arguments height {P} _.
Arguments data {P} _.

Definition size {P} (img : Image P) : nat * nat := (width img, height img).

(** Every buffer Pillow hands out holds exactly width * height pixels. *)
Definition wf_image {P} (img : Image P) : Prop :=
  length (data img) = (width img * height img)%nat.

(** [Image.new(mode, (w, h), color)] *)
Definition Image_new {P} (sz : nat * nat) (color : P) : Image P :=
  mkImage sz.1 sz.2 (replicate (sz.1 * sz.2)%nat color).

Definition in_bounds {P} (img : Image P) (xy : nat * nat) : bool :=
  bool_decide (xy.1 < width img)%nat && bool_decide (xy.2 < height img)%nat.

Definition offset {P} (img : Image P) (xy : nat * nat) : nat :=
  (xy.2 * width img + xy.1)%nat.

(** [pixels[x, y]] on a pixel-access object; [None] is IndexError. *)
Definition getpixel {P} (img : Image P) (xy : nat * nat) : option P :=
  if in_bounds img xy then data img !! offset img xy else None.

(** [pixels[x, y] = v]: writes through to the image; [None] is IndexError. *)
Definition putpixel {P} (img : Image P) (xy : nat * nat) (v : P)
  : option (Image P) :=
  if in_bounds img xy
  then Some (mkImage (width img) (height img) (<[offset img xy := v]> (data img)))
  else None.

(** [range(n)] *)
Definition range (n : nat) : list nat := seq 0 n.

(** [for i in xs: body], threading the mutated state; an exception in the
    body leaves the loop. *)
Fixpoint for_in {I S : Type} (xs : list I) (body : I -> S -> option S) (s : S)
  : option S :=
  match xs with
  | [] => Some s
  | i :: xs' => s' ← body i s; for_in xs' body s'
  end.

(** ** The mask builder *)

Definition MAGENTA : RGB := (255, 0, 255).

Definition is_background_pixel {P} `{Pixel P} (px : P) (tolerance : Z) : bool :=
  (* squared distance in RGB space *)
  let dr := px_0 px - px_0 MAGENTA in
  let dg := px_1 px - px_1 MAGENTA in
  let db := px_2 px - px_2 MAGENTA in
  dr * dr + dg * dg + db * db <=? tolerance * tolerance.

Definition make_mask {P} `{Pixel P} (img : Image P) (tolerance : Z)
  : option (Image L) :=
  let '(w, h) := size img in
  let mask := Image_new (w, h) 255 in
  for_in (range h) (fun y mask =>
    for_in (range w) (fun x mask =>
      px ← getpixel img (x, y);
      if is_background_pixel px tolerance
      then putpixel mask (x, y) 0
      else putpixel mask (x, y) 255) mask) mask.

(** The squared distance the classification compares, written as in the
    prose of the design. *)
Definition dist2 {P} `{Pixel P} (px : P) : Z :=
  (px_0 px - 255) * (px_0 px - 255)
  + (px_1 px - 0) * (px_1 px - 0)
  + (px_2 px - 255) * (px_2 px - 255).

(** The value the loop body stores for one pixel. *)
Definition mask_value {P} `{Pixel P} (tolerance : Z) (px : P) : L :=
  if is_background_pixel px tolerance then 0 else 255.

(** The mask while the loops run: after the first [k] pixels, in row-major
    order, were classified, those hold their value and the rest still hold
    the 255 of [Image.new]. *)
Definition mask_after {P} `{Pixel P} (img : Image P) (tolerance : Z) (k : nat)
  : Image L :=
  mkImage (width img) (height img)
    ((mask_value tolerance <$> take k (data img))
     ++ replicate (width img * height img - k)%nat 255).

(** ** Pillow as an interface

    [Image.resize(size, resample=Image.LANCZOS)] may raise (a target side
    below one pixel is a ValueError, one too large an OverflowError) and so
    may [Image.filter(ImageFilter.GaussianBlur(radius))] (a radius that is
    not a finite number is a ValueError): both are fallible. *)

Class Resizer (P : Type) := resize : Image P -> Z * Z -> option (Image P).
Class Blurrer := filter_GaussianBlur : Image L -> float -> option (Image L).

(** The "over" operator on one pixel, [over dst src], and the colour-string
    parser behind [Image.new("RGBA", size, color)]. *)
Class Compositor := over : RGBA -> RGBA -> RGBA.
Class ColorParser := getcolor : string -> option RGBA.

(** ** Library calls, logged

    The smoother runs in a small monad that fails when a library call raises
    and otherwise records every resize and filter call with its receiver. *)

Inductive Call (P : Type) :=
| CallResize (receiver : Image P + Image L) (sz : Z * Z)
| CallFilter (receiver : Image P + Image L) (radius : float).
Arguments CallResize {P} _ _.
Arguments CallFilter {P} _ _.

Definition Lib (P A : Type) : Type := option (A * list (Call P)).

Definition ret {P A} (a : A) : Lib P A := Some (a, []).

Definition bind {P A C} (m : Lib P A) (k : A -> Lib P C) : Lib P C :=
  match m with
  | None => None
  | Some (a, log1) =>
      match k a with
      | None => None
      | Some (c, log2) => Some (c, log1 ++ log2)
      end
  end.

(** A call that is not logged. *)
Definition lift {P A} (o : option A) : Lib P A :=
  match o with Some a => ret a | None => None end.

Declare Scope lib_scope.
Delimit Scope lib_scope with lib.
Notation "'let*' p ':=' c 'in' k" := (bind c (fun p => k))
  (at level 10, p pattern, c at level 100, k at level 200) : lib_scope.

(** What a log says about the calls made. *)
Definition is_resize {P} (c : Call P) : bool :=
  match c with CallResize _ _ => true | CallFilter _ _ => false end.

Definition is_filter {P} (c : Call P) : bool :=
  match c with CallFilter _ _ => true | CallResize _ _ => false end.

Definition on_color_image {P} (c : Call P) : bool :=
  match c with
  | CallResize (inl _) _ | CallFilter (inl _) _ => true
  | _ => false
  end.

Section Smoother.
Context {P : Type} {RP : Resizer P} {RL : Resizer L} {B : Blurrer}.
Local Open Scope lib_scope.

Definition img_resize (img : Image P) (sz : Z * Z) : Lib P (Image P) :=
  match resize img sz with
  | Some img' => Some (img', [CallResize (inl img) sz])
  | None => None
  end.

Definition mask_resize (mask : Image L) (sz : Z * Z) : Lib P (Image L) :=
  match resize mask sz with
  | Some mask' => Some (mask', [CallResize (inr mask) sz])
  | None => None
  end.

Definition mask_filter (mask : Image L) (radius : float) : Lib P (Image L) :=
  match filter_GaussianBlur mask radius with
  | Some mask' => Some (mask', [CallFilter (inr mask) radius])
  | None => None
  end.

Definition smooth_alpha (img : Image P) (mask : Image L) (upscale : Z)
    (blur_radius : float) : Lib P (Image P * Image L) :=
  let* (img, mask) :=
    (if 1 <? upscale then
       let new_size := (Z.of_nat (width img) * upscale,
                        Z.of_nat (height img) * upscale) in
       let* img := img_resize img new_size in
       let* mask := mask_resize mask new_size in
       ret (img, mask)
     else ret (img, mask)) in
  (* Blur mask to anti-alias edges *)
  let* mask := mask_filter mask blur_radius in
  (* Downscale back if we upscaled *)
  if 1 <? upscale then
    let* img := img_resize img (Z.of_nat (width img) / upscale,
                                Z.of_nat (height img) / upscale) in
    let* mask := mask_resize mask (Z.of_nat (width mask) / upscale,
                                   Z.of_nat (height mask) / upscale) in
    ret (img, mask)
  else ret (img, mask).
End Smoother.

(** ** The compositor and the pipeline of [main] *)

(** [img.convert("RGB")] on an RGBA image drops the fourth band. *)
Definition rgb_of (px : RGBA) : RGB := let '(r, g, b, _) := px in (r, g, b).

Definition convert_RGB (img : Image RGBA) : Image RGB :=
  mkImage (width img) (height img) (rgb_of <$> data img).

(** [img.putalpha(alpha)] on an RGB image: the image becomes RGBA with the
    given band as opacity; a band of another size is a ValueError. *)
Definition putalpha (img : Image RGB) (alpha : Image L) : option (Image RGBA) :=
  if decide (size img = size alpha)
  then Some (mkImage (width img) (height img)
               (zip_with (fun '(r, g, b) a => (r, g, b, a)) (data img) (data alpha)))
  else None.

(** [Image.new("RGBA", size, color)] with a colour string. *)
Definition Image_new_RGBA `{ColorParser} (sz : nat * nat) (color : string)
  : option (Image RGBA) :=
  c ← getcolor color; Some (Image_new sz c).

(** [Image.alpha_composite(im1, im2)]: [im2] over [im1]; images of different
    sizes are a ValueError. *)
Definition alpha_composite `{Compositor} (im1 im2 : Image RGBA)
  : option (Image RGBA) :=
  if decide (size im1 = size im2)
  then Some (mkImage (width im1) (height im1) (zip_with over (data im1) (data im2)))
  else None.

Record Args := mkArgs {
  tolerance : Z;           (* --tolerance, type=int *)
  upscale : Z;             (* --upscale, type=int *)
  blur : float;            (* --blur, type=float *)
  bg : option string       (* --bg, default None *)
}.

(** The truth value of [args.bg]: [None] and the empty string are false. *)
Definition bg_given (b : option string) : option string :=
  match b with
  | Some EmptyString => None
  | other => other
  end.

Section Main.
Context {RP : Resizer RGB} {RL : Resizer L} {B : Blurrer}
        {C : Compositor} {CP : ColorParser}.
Local Open Scope lib_scope.

(** [main] between decoding and encoding: [img] is the result of
    [Image.open(args.input).convert("RGBA")], the value returned is the
    buffer handed to [out.save]. *)
Definition main (args : Args) (img : Image RGBA) : Lib RGB (Image RGBA) :=
  let* mask := lift (make_mask img (tolerance args)) in
  let img_no_alpha := convert_RGB img in   (* we'll apply alpha from mask *)
  let* (img_smooth, mask_smooth) :=
    smooth_alpha img_no_alpha mask (upscale args) (blur args) in
  (* add mask as alpha *)
  let* img_smooth := lift (putalpha img_smooth mask_smooth) in
  match bg_given (bg args) with
  | Some color =>
      (* composite over chosen background color *)
      let* bg := lift (Image_new_RGBA (size img_smooth) color) in
      let* out := lift (alpha_composite bg img_smooth) in
      ret out
  | None => ret img_smooth
  end.
End Main.

(** One output pixel of a run with hard edges over a background [c]: the
    colour bands of [px], with its classification as opacity, over [c]. *)
Definition cut_out `{Compositor} (t : Z) (c : RGBA) (px : RGBA) : RGBA :=
  let '(r, g, b, _) := px in over c (r, g, b, mask_value t px).

(** ** Contracts assumed of the library *)

(** A resize that returns gives an image of the requested size. Nothing is
    assumed about when it returns. *)
Class ResizerLaws (P : Type) `{Resizer P} : Prop := {
  resize_width img sz img' :
    resize img sz = Some img' -> Z.of_nat (width img') = sz.1;
  resize_height img sz img' :
    resize img sz = Some img' -> Z.of_nat (height img') = sz.2
}.

(** A blur that returns keeps the size of the band, and a radius equal to
    zero returns a copy of the band. Nothing is assumed about other radii:
    the blur may raise there. *)
Class BlurrerLaws `{Blurrer} : Prop := {
  blur_width m r m' :
    filter_GaussianBlur m r = Some m' -> width m' = width m;
  blur_height m r m' :
    filter_GaussianBlur m r = Some m' -> height m' = height m;
  blur_zero m r : (r =? 0)%float = true -> filter_GaussianBlur m r = Some m
}.

(** A fully opaque source pixel replaces the destination, a fully
    transparent one leaves it. *)
Class CompositorLaws `{Compositor} : Prop := {
  over_opaque dst r g b :
    valid_band r -> valid_band g -> valid_band b ->
    over dst (r, g, b, 255) = (r, g, b, 255);
  over_transparent dst r g b : over dst (r, g, b, 0) = dst
}.

Definition WHITE : RGBA := (255, 255, 255, 255).

Class ColorParserLaws `{ColorParser} : Prop := {
  getcolor_white : getcolor "#ffffff" = Some WHITE
}.

(** A blur that returns hands back a buffer as well formed as the one it was
    given. *)
Class BlurrerBufferLaws `{Blurrer} : Prop := {
  blur_wf m r m' :
    filter_GaussianBlur m r = Some m' -> wf_image m -> wf_image m'
}.

(** The pixel a run with hard edges and no background gives for [px]: its
    colour bands, with the classification as opacity. *)
Definition keyed (t : Z) (px : RGBA) : RGBA :=
  let '(r, g, b, _) := px in (r, g, b, mask_value t px).

(** ** A reference implementation of the interfaces

    Nearest-neighbour resampling, a three-tap box blur, the integer "over"
    arithmetic with seven extra bits of precision, and a parser for
    "#rrggbb" colour strings. *)

Module Reference.

Definition nearest {P} (fill : P) : Resizer P := fun img sz =>
  let '(w', h') := sz in
  if bool_decide (Z.of_nat (width img) = w' /\ Z.of_nat (height img) = h')
  then Some img
  else if bool_decide (w' < 1 \/ h' < 1) then None         (* ValueError *)
  else if bool_decide (2 ^ 31 <= w' \/ 2 ^ 31 <= h') then None (* OverflowError *)
  else
    let nw := Z.to_nat w' in
    let nh := Z.to_nat h' in
    Some (mkImage nw nh
            (y ← range nh; x ← range nw;
             [default fill (getpixel img ((x * width img) `div` nw,
                                          (y * height img) `div` nh)%nat)])).

#[export] Instance resize_RGB : Resizer RGB := nearest (0, 0, 0).
#[export] Instance resize_L : Resizer L := nearest 0.

Definition box3 (l : list L) : list L :=
  imap (fun i v =>
          (default v (l !! pred i) + v + default v (l !! S i)) / 3) l.

#[export] Instance blur : Blurrer := fun m r =>
  if (r =? 0)%float then Some m
  else if is_nan r || is_infinity r then None          (* ValueError *)
  else Some (mkImage (width m) (height m) (box3 (data m))).

Definition shift_for_div255 (a : Z) : Z := Z.shiftr (Z.shiftr a 8 + a) 8.

Definition blend_band (coef1 coef2 s d : Z) : Z :=
  Z.shiftr (shift_for_div255 (s * coef1 + d * coef2 + Z.shiftl 128 7)) 7.

#[export] Instance composite : Compositor := fun dst src =>
  let '(dr, dg, db, da) := dst in
  let '(sr, sg, sb, sa) := src in
  if sa =? 0 then dst
  else
    let blend := da * (255 - sa) in
    let outa255 := sa * 255 + blend in
    let coef1 := sa * 255 * 255 * Z.shiftl 1 7 / outa255 in
    let coef2 := 255 * Z.shiftl 1 7 - coef1 in
    (blend_band coef1 coef2 sr dr,
     blend_band coef1 coef2 sg dg,
     blend_band coef1 coef2 sb db,
     shift_for_div255 (outa255 + 128)).

Definition hex_digit (c : Ascii.ascii) : option Z :=
  let n := Z.of_nat (Ascii.nat_of_ascii c) in
  if bool_decide (48 <= n <= 57) then Some (n - 48)
  else if bool_decide (97 <= n <= 102) then Some (n - 87)
  else if bool_decide (65 <= n <= 70) then Some (n - 55)
  else None.

Definition hex_byte (hi lo : Ascii.ascii) : option Z :=
  h ← hex_digit hi; l ← hex_digit lo; Some (16 * h + l).

#[export] Instance parse_hex : ColorParser := fun s =>
  match s with
  | String "#"%char (String r1 (String r2 (String g1 (String g2
      (String b1 (String b2 EmptyString)))))) =>
      r ← hex_byte r1 r2; g ← hex_byte g1 g2; b ← hex_byte b1 b2;
      Some (r, g, b, 255)
  | _ => None
  end.

(** The test that an opaque source band comes through unchanged. *)
Definition band_unchanged (s : Z) : bool :=
  blend_band (255 * Z.shiftl 1 7) 0 s 0 =? s.

(** A second blur, which leaves every band as it is. *)
Definition no_blur : Blurrer := fun m _ => Some m.

(** The smoother and the pipeline run on this implementation. *)
Definition smooth (img : Image RGB) (mask : Image L) (u : Z) (r : float)
  : Lib RGB (Image RGB * Image L) := smooth_alpha img mask u r.

Definition smooth_no_blur (img : Image RGB) (mask : Image L) (u : Z) (r : float)
  : Lib RGB (Image RGB * Image L) := smooth_alpha (B := no_blur) img mask u r.

Definition run (args : Args) (img : Image RGBA) : Lib RGB (Image RGBA) :=
  main args img.

(** Sample buffers: a 4 x 4 image whose left half is magenta and whose
    right half is pure red, with varying opacity, and a 2 x 1 strip. *)
Definition M_ : RGBA := (255, 0, 255, 255).
Definition R_ : RGBA := (255, 0, 0, 255).

Definition half_and_half : Image RGBA :=
  mkImage 4 4 [M_; M_; R_; R_;  M_; M_; R_; R_;
               M_; M_; R_; R_;  M_; M_; R_; R_].

Definition half_and_half_faded : Image RGBA :=
  mkImage 4 4 ((fun '(r, g, b, _) => (r, g, b, 7)) <$> data half_and_half).

Definition strip : Image RGB := mkImage 2 1 [(255, 0, 255); (10, 20, 30)].
Definition strip_mask : Image L := mkImage 2 1 [0; 255].

End Reference.

(** * Properties *)

(** ** The model at work *)

Example magenta_is_background : is_background_pixel MAGENTA 0 = true.
Proof. reflexivity. Qed.

Example red_is_foreground : is_background_pixel Reference.R_ 10 = false.
Proof. reflexivity. Qed.

Example far_corner_at_441 : is_background_pixel (0, 255, 0) 441 = false.
Proof. reflexivity. Qed.

Example far_corner_at_442 : is_background_pixel (0, 255, 0) 442 = true.
Proof. reflexivity. Qed.

Example mask_of_half_and_half :
  make_mask Reference.half_and_half 10
  = Some (mkImage 4 4 [0; 0; 255; 255;  0; 0; 255; 255;
                       0; 0; 255; 255;  0; 0; 255; 255]).
Proof. reflexivity. Qed.

(** A buffer shorter than its size announces makes the pixel access raise. *)
Example mask_of_short_buffer : make_mask (mkImage 2 1 [MAGENTA]) 10 = None.
Proof. reflexivity. Qed.

(** Upscaling a 0 x 3 image asks the resize for a 0 x 6 image, which raises. *)
Example smooth_empty_image :
  Reference.smooth (mkImage 0 3 []) (mkImage 0 3 []) 2 1 = None.
Proof. reflexivity. Qed.

(** A radius that is not a finite number makes the blur raise, and the
    smoother with it. *)
Example smooth_nan_radius :
  Reference.smooth Reference.strip Reference.strip_mask 1 nan = None.
Proof. reflexivity. Qed.

Example smooth_infinite_radius :
  Reference.smooth Reference.strip Reference.strip_mask 1 infinity = None.
Proof. reflexivity. Qed.

(** A target side of 2^31 pixels makes the resize raise. *)
Example smooth_oversized_target :
  Reference.smooth Reference.strip Reference.strip_mask (2 ^ 30) 1 = None.
Proof. reflexivity. Qed.

Example smooth_strip_sizes :
  (fun res => (size res.1.1, size res.1.2, length res.2))
    <$> Reference.smooth Reference.strip Reference.strip_mask 2 1
  = Some ((2, 1)%nat, (2, 1)%nat, 5%nat).
Proof. vm_compute. reflexivity. Qed.

Example run_without_background :
  fst <$> Reference.run (mkArgs 10 1 0 None) (mkImage 2 1 [Reference.M_; Reference.R_])
  = Some (mkImage 2 1 [(255, 0, 255, 0); (255, 0, 0, 255)]).
Proof. vm_compute. reflexivity. Qed.

(** ** The classification of one pixel *)

Section Classification.
Context {P : Type} `{Pixel P}.

Lemma is_background_pixel_dist2 (px : P) (t : Z) :
  is_background_pixel px t = bool_decide (dist2 px <= t * t).
Proof.
  unfold is_background_pixel, dist2; cbn [px_0 px_1 px_2 MAGENTA RGB_Pixel].
  destruct (Z.leb_spec ((px_0 px - 255) * (px_0 px - 255)
                        + (px_1 px - 0) * (px_1 px - 0)
                        + (px_2 px - 255) * (px_2 px - 255)) (t * t));
    [rewrite bool_decide_eq_true_2 | rewrite bool_decide_eq_false_2]; lia.
Qed.

Lemma is_background_pixel_true (px : P) (t : Z) :
  is_background_pixel px t = true <-> dist2 px <= t * t.
Proof. rewrite is_background_pixel_dist2. apply bool_decide_eq_true. Qed.

Lemma is_background_pixel_false (px : P) (t : Z) :
  is_background_pixel px t = false <-> t * t < dist2 px.
Proof.
  rewrite is_background_pixel_dist2, bool_decide_eq_false. lia.
Qed.

Lemma mask_value_cases (px : P) (t : Z) :
  (mask_value t px = 0 /\ dist2 px <= t * t) \/
  (mask_value t px = 255 /\ t * t < dist2 px).
Proof.
  unfold mask_value.
  destruct (is_background_pixel px t) eqn:E.
  - left. split; [done | by apply is_background_pixel_true].
  - right. split; [done | by apply is_background_pixel_false].
Qed.

Lemma dist2_nonneg (px : P) : 0 <= dist2 px.
Proof.
  unfold dist2.
  pose proof (Z.square_nonneg (px_0 px - 255)).
  pose proof (Z.square_nonneg (px_1 px - 0)).
  pose proof (Z.square_nonneg (px_2 px - 255)). lia.
Qed.

Lemma square_le_255 (c k : Z) : 0 <= c <= 255 -> 0 <= k <= 255 ->
  (c - k) * (c - k) <= 65025.
Proof. intros ? ?. nia. Qed.

Lemma dist2_max (px : P) : valid_pixel px -> dist2 px <= 195075.
Proof.
  unfold valid_pixel, valid_band, dist2. intros (H0 & H1 & H2).
  pose proof (square_le_255 (px_0 px) 255 H0).
  pose proof (square_le_255 (px_1 px) 0 H1).
  pose proof (square_le_255 (px_2 px) 255 H2). lia.
Qed.

Lemma square_zero (a : Z) : a * a = 0 -> a = 0.
Proof. nia. Qed.

Lemma dist2_zero (px : P) :
  dist2 px = 0 <-> px_0 px = 255 /\ px_1 px = 0 /\ px_2 px = 255.
Proof.
  unfold dist2. split.
  - intros E.
    pose proof (Z.square_nonneg (px_0 px - 255)).
    pose proof (Z.square_nonneg (px_1 px - 0)).
    pose proof (Z.square_nonneg (px_2 px - 255)).
    assert (px_0 px - 255 = 0) by (apply square_zero; lia).
    assert (px_1 px - 0 = 0) by (apply square_zero; lia).
    assert (px_2 px - 255 = 0) by (apply square_zero; lia).
    lia.
  - intros (-> & -> & ->). reflexivity.
Qed.
End Classification.

(** ** The loops of [make_mask] *)

Lemma for_in_ext {I S} (xs : list I) (f g : I -> S -> option S) (s : S) :
  (forall i s', i ∈ xs -> f i s' = g i s') -> for_in xs f s = for_in xs g s.
Proof.
  revert s. induction xs as [|i xs IH]; intros s Hfg; [done|].
  cbn [for_in]. rewrite Hfg by constructor.
  destruct (g i s) as [s'|]; [cbn | done].
  apply IH. intros j s'' Hj. apply Hfg. by constructor.
Qed.

Section MaskLoops.
Context {P : Type} `{Pixel P}.
Variable img : Image P.
Variable t : Z.
Hypothesis Hwf : wf_image img.

Local Abbreviation w := (width img).
Local Abbreviation h := (height img).

Lemma offset_lt (x y : nat) :
  (x < w)%nat -> (y < h)%nat -> (y * w + x < w * h)%nat.
Proof. nia. Qed.

Lemma body_step (x y : nat) :
  (x < w)%nat -> (y < h)%nat ->
  (px ← getpixel img (x, y);
   if is_background_pixel px t
   then putpixel (mask_after img t (y * w + x)) (x, y) 0
   else putpixel (mask_after img t (y * w + x)) (x, y) 255)
  = Some (mask_after img t (S (y * w + x))).
Proof.
  intros Hx Hy. pose proof (offset_lt x y Hx Hy) as Hk.
  unfold getpixel, in_bounds, offset; cbn [fst snd].
  rewrite !bool_decide_eq_true_2 by done. cbn [andb].
  destruct (lookup_lt_is_Some_2 (data img) (y * w + x)%nat) as [px Hpx].
  { red in Hwf. lia. }
  rewrite Hpx. cbn [mbind option_bind].
  assert (Hput : forall v, putpixel (mask_after img t (y * w + x)) (x, y) v
    = Some (mkImage w h
              (<[(y * w + x)%nat := v]> (data (mask_after img t (y * w + x)))))).
  { intros v. unfold putpixel, in_bounds, offset.
    cbn [fst snd mask_after width height].
    by rewrite !bool_decide_eq_true_2. }
  assert (Hins :
    <[(y * w + x)%nat := mask_value t px]> (data (mask_after img t (y * w + x)))
    = data (mask_after img t (S (y * w + x)))).
  { cbn [mask_after data].
    assert (Hlen : length (mask_value t <$> take (y * w + x) (data img))
                   = (y * w + x)%nat).
    { rewrite length_fmap, length_take. red in Hwf. lia. }
    rewrite insert_app_r_alt by lia. rewrite Hlen, Nat.sub_diag.
    replace (w * h - (y * w + x))%nat with (S (w * h - S (y * w + x))) by lia.
    cbn [replicate]. rewrite (take_S_r _ _ px) by done.
    rewrite fmap_app. cbn. by rewrite <- app_assoc. }
  unfold mask_value in Hins.
  destruct (is_background_pixel px t); rewrite Hput, Hins; reflexivity.
Qed.

Lemma row_loop (y n a : nat) :
  (y < h)%nat -> (a + n = w)%nat ->
  for_in (seq a n) (fun x mask =>
    px ← getpixel img (x, y);
    if is_background_pixel px t
    then putpixel mask (x, y) 0
    else putpixel mask (x, y) 255) (mask_after img t (y * w + a))
  = Some (mask_after img t (y * w + a + n)).
Proof.
  intros Hy. revert a. induction n as [|n IH]; intros a Ha; cbn [seq for_in].
  - by rewrite Nat.add_0_r.
  - rewrite body_step by lia. cbn [mbind option_bind].
    replace (S (y * w + a)) with (y * w + S a)%nat by lia.
    rewrite IH by lia. f_equal. f_equal. lia.
Qed.

Lemma rows_loop (n b : nat) :
  (b + n = h)%nat ->
  for_in (seq b n) (fun y mask =>
    for_in (range w) (fun x mask =>
      px ← getpixel img (x, y);
      if is_background_pixel px t
      then putpixel mask (x, y) 0
      else putpixel mask (x, y) 255) mask) (mask_after img t (b * w))
  = Some (mask_after img t ((b + n) * w)).
Proof.
  revert b. induction n as [|n IH]; intros b Hb; cbn [seq for_in].
  - by rewrite Nat.add_0_r.
  - unfold range.
    replace (mask_after img t (b * w))
      with (mask_after img t (b * w + 0)) by (f_equal; lia).
    rewrite row_loop by lia. cbn [mbind option_bind].
    replace (b * w + 0 + w)%nat with (S b * w)%nat by lia.
    rewrite IH by lia. f_equal. f_equal. lia.
Qed.

(** On a well-formed buffer the mask builder returns, and its result is
    the pixel-wise classification. *)
Lemma make_mask_closed :
  make_mask img t = Some (mkImage w h (mask_value t <$> data img)).
Proof.
  unfold make_mask, size, Image_new; cbn [fst snd].
  pose proof (rows_loop h 0 eq_refl) as E.
  assert (E0 : mask_after img t (0 * w) = mkImage w h (replicate (w * h) 255)).
  { unfold mask_after. by rewrite Nat.mul_0_l, take_0, Nat.sub_0_r. }
  rewrite E0 in E. unfold range in E |- *. rewrite E.
  unfold mask_after. f_equal. f_equal.
  rewrite take_ge by (red in Hwf; lia).
  replace (w * h - (0 + h) * w)%nat with 0%nat by lia.
  cbn [replicate]. by rewrite app_nil_r.
Qed.
End MaskLoops.

Lemma getpixel_fmap {A C} (f : A -> C) (img : Image A) (xy : nat * nat) :
  getpixel (mkImage (width img) (height img) (f <$> data img)) xy
  = f <$> getpixel img xy.
Proof.
  unfold getpixel, in_bounds, offset; cbn [width height data].
  destruct (_ && _); [apply list_lookup_fmap | done].
Qed.

Lemma getpixel_is_Some {A} (img : Image A) (x y : nat) :
  wf_image img -> (x < width img)%nat -> (y < height img)%nat ->
  is_Some (getpixel img (x, y)).
Proof.
  intros Hwf Hx Hy. unfold getpixel, in_bounds, offset; cbn [fst snd].
  rewrite !bool_decide_eq_true_2 by done. cbn [andb].
  apply lookup_lt_is_Some_2. red in Hwf. nia.
Qed.

(** The mask builder returns on every well-formed buffer, and the mask
    pixel at an in-range coordinate is the classification of the image pixel
    at the same coordinate. *)
Lemma make_mask_pixel {P} `{Pixel P} (img : Image P) (t : Z) (x y : nat) :
  wf_image img -> (x < width img)%nat -> (y < height img)%nat ->
  exists mask px,
    make_mask img t = Some mask /\
    size mask = size img /\
    getpixel img (x, y) = Some px /\
    getpixel mask (x, y) = Some (mask_value t px).
Proof.
  intros Hwf Hx Hy.
  destruct (getpixel_is_Some img x y Hwf Hx Hy) as [px Hpx].
  eexists _, px. split; [by apply make_mask_closed|].
  split; [done|]. split; [done|].
  by rewrite getpixel_fmap, Hpx.
Qed.

(** ** Claims about the mask builder *)

(** C1. For every image buffer and every tolerance (non-negative or not),
    the mask builder returns a mask whose pixel at each coordinate (x, y) of
    the image is 0 exactly when the squared distance
    (r - 255)² + (g - 0)² + (b - 255)² of the image pixel at (x, y) to the
    key colour is at most tolerance², and 255 otherwise. *)
Theorem make_mask_classifies {P} `{Pixel P} (img : Image P) (t : Z) (x y : nat) :
  wf_image img -> (x < width img)%nat -> (y < height img)%nat ->
  exists mask px,
    make_mask img t = Some mask /\
    getpixel img (x, y) = Some px /\
    getpixel mask (x, y)
    = Some (if bool_decide (dist2 px <= t * t) then 0 else 255).
Proof.
  intros Hwf Hx Hy.
  destruct (make_mask_pixel img t x y Hwf Hx Hy) as (mask & px & Hm & _ & Hpx & Hv).
  exists mask, px. split; [done|]. split; [done|].
  rewrite Hv. unfold mask_value. by rewrite is_background_pixel_dist2.
Qed.

Lemma make_mask_classifies_witness :
  exists mask px,
    make_mask Reference.half_and_half 10 = Some mask /\
    getpixel Reference.half_and_half (2%nat, 1%nat) = Some px /\
    getpixel mask (2%nat, 1%nat)
    = Some (if bool_decide (dist2 px <= 10 * 10) then 0 else 255).
Proof.
  apply (make_mask_classifies Reference.half_and_half 10 2 1);
    [reflexivity | cbn; lia | cbn; lia].
Defined.

(** C3. With tolerance 0 the mask builder marks as background exactly the
    pixels equal to (255, 0, 255); with any tolerance of at least 442 it
    marks every pixel whose bands are bytes as background (mask value 0). *)
Theorem tolerance_edge_cases {P} `{Pixel P} (img : Image P) (x y : nat) (px : P) :
  wf_image img -> getpixel img (x, y) = Some px ->
  (exists mask,
     make_mask img 0 = Some mask /\
     (getpixel mask (x, y) = Some 0
      <-> px_0 px = 255 /\ px_1 px = 0 /\ px_2 px = 255) /\
     (getpixel mask (x, y) = Some 255
      <-> ~ (px_0 px = 255 /\ px_1 px = 0 /\ px_2 px = 255))) /\
  (forall t, 442 <= t -> valid_pixel px ->
     is_background_pixel px t = true /\
     exists mask,
       make_mask img t = Some mask /\ getpixel mask (x, y) = Some 0).
Proof.
  intros Hwf Hpx.
  assert (Hm : forall t, getpixel (mkImage (width img) (height img)
                 (mask_value t <$> data img)) (x, y) = Some (mask_value t px)).
  { intros t. by rewrite getpixel_fmap, Hpx. }
  split.
  - eexists. split; [by apply make_mask_closed|]. rewrite Hm.
    rewrite <- dist2_zero. pose proof (dist2_nonneg px).
    destruct (mask_value_cases px 0) as [[-> Hd] | [-> Hd]].
    + split; split; intros; try done; lia.
    + split; split; intros; try done; lia.
  - intros t Ht Hvalid. pose proof (dist2_max px Hvalid).
    assert (dist2 px <= t * t) by nia.
    split; [by apply is_background_pixel_true|].
    eexists. split; [by apply make_mask_closed|]. rewrite Hm.
    destruct (mask_value_cases px t) as [[-> Hd] | [-> Hd]]; [done | lia].
Qed.

Lemma tolerance_edge_cases_witness :
  (exists mask,
     make_mask Reference.half_and_half 0 = Some mask /\
     (getpixel mask (3%nat, 0%nat) = Some 0
      <-> px_0 Reference.R_ = 255 /\ px_1 Reference.R_ = 0
          /\ px_2 Reference.R_ = 255) /\
     (getpixel mask (3%nat, 0%nat) = Some 255
      <-> ~ (px_0 Reference.R_ = 255 /\ px_1 Reference.R_ = 0
             /\ px_2 Reference.R_ = 255))) /\
  (is_background_pixel Reference.R_ 442 = true /\
   exists mask,
     make_mask Reference.half_and_half 442 = Some mask /\
     getpixel mask (3%nat, 0%nat) = Some 0).
Proof.
  destruct (tolerance_edge_cases Reference.half_and_half 3 0 Reference.R_)
    as [H0 H442]; [reflexivity | reflexivity |].
  split; [exact H0|].
  apply H442; [lia|]. unfold valid_pixel, valid_band; cbn. lia.
Defined.

Lemma make_mask_same_classification {P} `{Pixel P} (img : Image P) (t t' : Z) :
  (forall px : P, is_background_pixel px t = is_background_pixel px t') ->
  make_mask img t = make_mask img t'.
Proof.
  intros E. unfold make_mask. cbn.
  apply for_in_ext. intros y m _.
  apply for_in_ext. intros x m' _.
  destruct (getpixel img (x, y)) as [px|]; [cbn | done]. by rewrite E.
Qed.

(** C8. Only tolerance² is used: for every pixel and every integer
    tolerance t, the classification with -t equals the classification with
    t and with |t|, so the masks built are the same; under a negative
    tolerance the key colour itself is still background. *)
Theorem tolerance_sign_irrelevant {P} `{Pixel P} (img : Image P) (px : P) (t : Z) :
  is_background_pixel px (- t) = is_background_pixel px t /\
  is_background_pixel px (Z.abs t) = is_background_pixel px t /\
  make_mask img (- t) = make_mask img t /\
  make_mask img (Z.abs t) = make_mask img t /\
  is_background_pixel MAGENTA (- t) = true.
Proof.
  assert (Hneg : forall q : P, is_background_pixel q (- t) = is_background_pixel q t).
  { intros q. unfold is_background_pixel. by rewrite Z.mul_opp_opp. }
  assert (Habs : forall q : P, is_background_pixel q (Z.abs t) = is_background_pixel q t).
  { intros q. unfold is_background_pixel. by rewrite Z.abs_square. }
  repeat split; auto using make_mask_same_classification.
  apply is_background_pixel_true. unfold dist2; cbn.
  pose proof (Z.square_nonneg (- t)). lia.
Qed.

(** C9. The classification is monotone in the tolerance: for
    0 <= t <= t', a pixel that is background at t is background at t', a
    pixel that is foreground at t' is foreground at t, and the same holds
    for the masks built from a buffer at every coordinate. *)
Theorem tolerance_monotone {P} `{Pixel P} (img : Image P) (x y : nat) (px : P)
    (t t' : Z) :
  0 <= t <= t' -> wf_image img -> getpixel img (x, y) = Some px ->
  (is_background_pixel px t = true -> is_background_pixel px t' = true) /\
  (is_background_pixel px t' = false -> is_background_pixel px t = false) /\
  exists mask mask',
    make_mask img t = Some mask /\ make_mask img t' = Some mask' /\
    (getpixel mask (x, y) = Some 0 -> getpixel mask' (x, y) = Some 0) /\
    (getpixel mask' (x, y) = Some 255 -> getpixel mask (x, y) = Some 255).
Proof.
  intros Ht Hwf Hpx.
  assert (Hsq : t * t <= t' * t') by nia.
  assert (Hm : forall u, getpixel (mkImage (width img) (height img)
                 (mask_value u <$> data img)) (x, y) = Some (mask_value u px)).
  { intros u. by rewrite getpixel_fmap, Hpx. }
  split; [|split].
  - rewrite !is_background_pixel_true. lia.
  - rewrite !is_background_pixel_false. lia.
  - eexists _, _.
    split; [by apply make_mask_closed|]. split; [by apply make_mask_closed|].
    rewrite !Hm.
    destruct (mask_value_cases px t) as [[-> Hd] | [-> Hd]];
      destruct (mask_value_cases px t') as [[-> Hd'] | [-> Hd']];
      split; intros; try done; lia.
Qed.

Lemma tolerance_monotone_witness :
  (is_background_pixel (250, 3, 252) 10 = true ->
   is_background_pixel (250, 3, 252) 80 = true) /\
  (is_background_pixel (250, 3, 252) 80 = false ->
   is_background_pixel (250, 3, 252) 10 = false) /\
  exists mask mask',
    make_mask (mkImage 1 1 [(250, 3, 252)]) 10 = Some mask /\
    make_mask (mkImage 1 1 [(250, 3, 252)]) 80 = Some mask' /\
    (getpixel mask (0%nat, 0%nat) = Some 0 ->
     getpixel mask' (0%nat, 0%nat) = Some 0) /\
    (getpixel mask' (0%nat, 0%nat) = Some 255 ->
     getpixel mask (0%nat, 0%nat) = Some 255).
Proof.
  apply (tolerance_monotone (mkImage 1 1 [(250, 3, 252)]) 0 0 (250, 3, 252) 10 80);
    [lia | reflexivity | reflexivity].
Defined.

(** ** The reference implementation meets the contracts *)

Module ReferenceLaws.
Import Reference.

Lemma nearest_laws {P} (fill : P) : @ResizerLaws P (nearest fill).
Proof.
  split.
  - intros img [w' h'] img'. unfold resize, nearest. cbn [fst snd].
    case_bool_decide as Hsame; [intros [= <-]; tauto|].
    case_bool_decide as Hsmall; [done|].
    case_bool_decide as Hlarge; [done|].
    intros [= <-]. cbn [width]. lia.
  - intros img [w' h'] img'. unfold resize, nearest. cbn [fst snd].
    case_bool_decide as Hsame; [intros [= <-]; tauto|].
    case_bool_decide as Hsmall; [done|].
    case_bool_decide as Hlarge; [done|].
    intros [= <-]. cbn [height]. lia.
Qed.

#[export] Instance resize_RGB_laws : ResizerLaws RGB := nearest_laws _.
#[export] Instance resize_L_laws : ResizerLaws L := nearest_laws _.

#[export] Instance blur_laws : BlurrerLaws.
Proof.
  split.
  - intros m r m'. unfold filter_GaussianBlur, blur.
    destruct (r =? 0)%float; [by intros [= <-]|].
    destruct (is_nan r || is_infinity r); [done | by intros [= <-]].
  - intros m r m'. unfold filter_GaussianBlur, blur.
    destruct (r =? 0)%float; [by intros [= <-]|].
    destruct (is_nan r || is_infinity r); [done | by intros [= <-]].
  - intros m r. unfold filter_GaussianBlur, blur. by intros ->.
Qed.

Lemma blend_band_opaque (s d : Z) :
  valid_band s -> blend_band (255 * Z.shiftl 1 7) 0 s d = s.
Proof.
  intros Hs.
  assert (Hall : forallb band_unchanged (Z.of_nat <$> seq 0 256) = true)
    by (vm_compute; reflexivity).
  rewrite forallb_forall in Hall.
  specialize (Hall s). unfold band_unchanged in Hall.
  unfold blend_band in *. rewrite Z.mul_0_r in *.
  apply Z.eqb_eq, Hall. apply list_elem_of_In, list_elem_of_fmap.
  exists (Z.to_nat s). split; [unfold valid_band in Hs; lia|].
  apply elem_of_seq. unfold valid_band in Hs. lia.
Qed.

#[export] Instance composite_laws : CompositorLaws.
Proof.
  split.
  - intros [[[dr dg] db] da] r g b Hr Hg Hb. unfold over, composite.
    change (255 =? 0) with false. cbv iota.
    replace (da * (255 - 255)) with 0 by lia.
    change (255 * 255 * 255 * Z.shiftl 1 7 / (255 * 255 + 0))
      with (255 * Z.shiftl 1 7).
    rewrite Z.sub_diag, !blend_band_opaque by done. reflexivity.
  - by intros [[[dr dg] db] da] r g b.
Qed.

#[export] Instance parse_hex_laws : ColorParserLaws.
Proof. split. reflexivity. Qed.
End ReferenceLaws.

(** ** The smoother, case by case *)

Section SmootherFacts.
Context {P : Type} {RP : Resizer P} {RL : Resizer L} {B : Blurrer}.

(** Without upscaling the only library call is the blur of the mask, and the
    run fails exactly when that call does. *)
Lemma smooth_alpha_native (img : Image P) (mask : Image L) (u : Z) (r : float) :
  u <= 1 ->
  smooth_alpha img mask u r
  = match filter_GaussianBlur mask r with
    | Some blurred => Some ((img, blurred), [CallFilter (inr mask) r])
    | None => None
    end.
Proof.
  intros Hu. unfold smooth_alpha.
  replace (1 <? u) with false by (symmetry; apply Z.ltb_ge; lia).
  unfold mask_filter, bind, ret.
  by destruct (filter_GaussianBlur mask r).
Qed.

Lemma smooth_alpha_native_inv (img img' : Image P) (mask mask' : Image L)
    (u : Z) (r : float) (log : list (Call P)) :
  u <= 1 ->
  smooth_alpha img mask u r = Some ((img', mask'), log) ->
  img' = img /\ filter_GaussianBlur mask r = Some mask' /\
  log = [CallFilter (inr mask) r].
Proof.
  intros Hu. rewrite smooth_alpha_native by done.
  destruct (filter_GaussianBlur mask r); [by intros [= <- <- <-] | done].
Qed.

(** With upscaling, a run that returns made five calls in this order. *)
Lemma smooth_alpha_upscaled_inv (img : Image P) (mask : Image L) (u : Z)
    (r : float) (img' : Image P) (mask' : Image L) (log : list (Call P)) :
  1 < u ->
  smooth_alpha img mask u r = Some ((img', mask'), log) ->
  let up := (Z.of_nat (width img) * u, Z.of_nat (height img) * u) in
  exists img1 mask1 mask2,
    let down_img := (Z.of_nat (width img1) / u, Z.of_nat (height img1) / u) in
    let down_mask := (Z.of_nat (width mask2) / u, Z.of_nat (height mask2) / u) in
    resize img up = Some img1 /\
    resize mask up = Some mask1 /\
    filter_GaussianBlur mask1 r = Some mask2 /\
    resize img1 down_img = Some img' /\
    resize mask2 down_mask = Some mask' /\
    log = [CallResize (inl img) up; CallResize (inr mask) up;
           CallFilter (inr mask1) r;
           CallResize (inl img1) down_img; CallResize (inr mask2) down_mask].
Proof.
  intros Hu. unfold smooth_alpha.
  replace (1 <? u) with true by (symmetry; apply Z.ltb_lt; lia).
  unfold img_resize, mask_resize, mask_filter, bind, ret.
  destruct (resize img _) as [img1|] eqn:E1; [|done].
  destruct (resize mask _) as [mask1|] eqn:E2; [|done].
  destruct (filter_GaussianBlur mask1 r) as [mask2|] eqn:E5; [|done].
  destruct (resize img1 _) as [img2|] eqn:E3; [|done].
  destruct (resize mask2 _) as [mask3|] eqn:E4; [|done].
  intros [= <- <- <-]. by exists img1, mask1, mask2.
Qed.

Context {LP : ResizerLaws P} {LL : ResizerLaws L} {LB : BlurrerLaws}.

(** Sizes after a run that returns. *)
Lemma smooth_alpha_sizes (img : Image P) (mask : Image L) (u : Z) (r : float)
    (img' : Image P) (mask' : Image L) (log : list (Call P)) :
  smooth_alpha img mask u r = Some ((img', mask'), log) ->
  size img' = size img /\
  size mask' = (if 1 <? u then size img else size mask).
Proof.
  intros Hrun. destruct (Z.ltb_spec 1 u) as [Hlt|Hle].
  - destruct (smooth_alpha_upscaled_inv _ _ _ _ _ _ _ Hlt Hrun)
      as (img1 & mask1 & mask2 & E1 & E2 & E5 & E3 & E4 & _).
    pose proof (resize_width _ _ _ E1) as W1.
    pose proof (resize_height _ _ _ E1) as H1.
    pose proof (resize_width _ _ _ E2) as W2.
    pose proof (resize_height _ _ _ E2) as H2.
    pose proof (resize_width _ _ _ E3) as W3.
    pose proof (resize_height _ _ _ E3) as H3.
    pose proof (resize_width _ _ _ E4) as W4.
    pose proof (resize_height _ _ _ E4) as H4.
    cbn [fst snd] in *.
    rewrite (blur_width _ _ _ E5) in W4. rewrite (blur_height _ _ _ E5) in H4.
    rewrite W1, Z.div_mul in W3 by lia. rewrite H1, Z.div_mul in H3 by lia.
    rewrite W2, Z.div_mul in W4 by lia. rewrite H2, Z.div_mul in H4 by lia.
    unfold size. split; f_equal; lia.
  - destruct (smooth_alpha_native_inv _ _ _ _ _ _ _ Hle Hrun) as (-> & E & _).
    split; [done|]. unfold size.
    by rewrite (blur_width _ _ _ E), (blur_height _ _ _ E).
Qed.
End SmootherFacts.

(** ** Claims about the smoother *)

(** C2, as the code has it. With upscale factor 1 and a blur radius equal to
    zero the smoother makes no resize call and exactly one blur call, on the
    mask with the given radius; it returns the image it was given and, since
    a blur of radius zero copies the band, a mask equal to the one it was
    given. *)
Theorem smoother_passthrough {P} {RP : Resizer P} {RL : Resizer L} {B : Blurrer}
    {LB : BlurrerLaws} (img : Image P) (mask : Image L) (r : float) :
  (r =? 0)%float = true ->
  exists log,
    smooth_alpha img mask 1 r = Some ((img, mask), log) /\
    log = [CallFilter (inr mask) r] /\
    List.filter is_resize log = [].
Proof.
  intros Hr. eexists. rewrite smooth_alpha_native by lia.
  rewrite blur_zero by done. done.
Qed.

Lemma smoother_passthrough_witness :
  exists log,
    Reference.smooth Reference.strip Reference.strip_mask 1 0
    = Some ((Reference.strip, Reference.strip_mask), log) /\
    log = [CallFilter (inr Reference.strip_mask) 0%float] /\
    List.filter is_resize log = [].
Proof.
  unfold Reference.smooth.
  apply (smoother_passthrough (LB := ReferenceLaws.blur_laws)). reflexivity.
Defined.

(** C2, as stated, fails: on a 2 x 1 strip, with upscale factor 1 and blur
    radius 0, the run is not free of library calls. *)
Lemma smoother_passthrough_calls_blur :
  Reference.smooth Reference.strip Reference.strip_mask 1 0
  <> Some ((Reference.strip, Reference.strip_mask), []).
Proof. unfold Reference.smooth. vm_compute. discriminate. Qed.

(** C4. For an image and a mask of size width x height and an upscale factor
    u >= 1, the image and the mask the smoother returns both have size
    width x height: upscaling by u and downscaling again comes back to the
    original size. *)
Theorem smoother_round_trip {P} {RP : Resizer P} {RL : Resizer L} {B : Blurrer}
    {LP : ResizerLaws P} {LL : ResizerLaws L} {LB : BlurrerLaws}
    (img img' : Image P) (mask mask' : Image L) (u : Z) (r : float)
    (log : list (Call P)) (w h : nat) :
  size img = (w, h) -> size mask = (w, h) -> 1 <= u ->
  smooth_alpha img mask u r = Some ((img', mask'), log) ->
  size img' = (w, h) /\ size mask' = (w, h).
Proof.
  intros Hi Hm Hu Hrun.
  destruct (smooth_alpha_sizes _ _ _ _ _ _ _ Hrun) as [-> ->].
  split; [done|]. by destruct (1 <? u).
Qed.

Lemma smoother_round_trip_witness :
  exists img' mask' log,
    Reference.smooth Reference.strip Reference.strip_mask 3 2
    = Some ((img', mask'), log) /\
    size img' = (2, 1)%nat /\ size mask' = (2, 1)%nat.
Proof.
  unfold Reference.smooth.
  do 3 eexists. split; [vm_compute; reflexivity|].
  eapply (smoother_round_trip
            (LP := ReferenceLaws.resize_RGB_laws)
            (LL := ReferenceLaws.resize_L_laws)
            (LB := ReferenceLaws.blur_laws)
            Reference.strip _ Reference.strip_mask _ 3 2);
    [reflexivity | reflexivity | lia | vm_compute; reflexivity].
Defined.

Lemma for_in_invariant {I S} (Inv : S -> Prop) (xs : list I)
    (body : I -> S -> option S) (s s' : S) :
  (forall i a a', body i a = Some a' -> Inv a -> Inv a') ->
  Inv s -> for_in xs body s = Some s' -> Inv s'.
Proof.
  intros Hbody. revert s. induction xs as [|i xs IH]; intros s Hs; cbn [for_in].
  - by intros [= <-].
  - destruct (body i s) as [a|] eqn:E; [cbn | done]. eauto.
Qed.

Lemma putpixel_size {A} (img img' : Image A) (xy : nat * nat) (v : A) :
  putpixel img xy v = Some img' -> size img' = size img.
Proof. unfold putpixel. destruct (in_bounds img xy); [by intros [= <-] | done]. Qed.

(** Whatever the mask builder returns has the size of its input. *)
Lemma make_mask_size {P} `{Pixel P} (img : Image P) (t : Z) (mask : Image L) :
  make_mask img t = Some mask -> size mask = size img.
Proof.
  unfold make_mask. cbn.
  apply (for_in_invariant (fun m : Image L => size m = size img)); [|done].
  intros y a a' Hrow Ha. revert Hrow.
  apply (for_in_invariant (fun m : Image L => size m = size img)); [|done].
  intros x c c' Hbody Hc.
  destruct (getpixel img (x, y)) as [px|]; [cbn in Hbody | done].
  destruct (is_background_pixel px t);
    apply putpixel_size in Hbody; congruence.
Qed.

(** C5. The mask has the size of the image at every stage: whatever the
    mask builder returns has the width and height of its input (and it
    returns on every well-formed buffer), and for an image and a mask of
    equal size, every upscale factor >= 1 and every blur radius, the image
    and the mask the smoother returns have equal size. *)
Theorem mask_size_is_image_size {P Q} `{Pixel P}
    {RQ : Resizer Q} {RL : Resizer L} {B : Blurrer}
    {LQ : ResizerLaws Q} {LL : ResizerLaws L} {LB : BlurrerLaws}
    (src : Image P) (t : Z) (img : Image Q) (mask : Image L) (u : Z) (r : float) :
  wf_image src -> size mask = size img -> 1 <= u ->
  ((forall m, make_mask src t = Some m -> size m = size src) /\
   is_Some (make_mask src t)) /\
  (forall img' mask' log,
     smooth_alpha img mask u r = Some ((img', mask'), log) ->
     size mask' = size img').
Proof.
  intros Hwf Hsize Hu. split; [split|].
  - intros m. apply make_mask_size.
  - rewrite make_mask_closed by done. by eexists.
  - intros img' mask' log Hrun.
    destruct (smooth_alpha_sizes _ _ _ _ _ _ _ Hrun) as [-> ->].
    by destruct (1 <? u).
Qed.

Lemma mask_size_is_image_size_witness :
  exists m img' mask' log,
    make_mask Reference.half_and_half 80 = Some m /\
    size m = size Reference.half_and_half /\
    Reference.smooth (convert_RGB Reference.half_and_half) m 2 2
    = Some ((img', mask'), log) /\
    size mask' = size img'.
Proof.
  unfold Reference.smooth.
  do 4 eexists.
  split; [vm_compute; reflexivity|].
  split; [reflexivity|].
  split; [vm_compute; reflexivity|].
  eapply (mask_size_is_image_size
            (LQ := ReferenceLaws.resize_RGB_laws)
            (LL := ReferenceLaws.resize_L_laws)
            (LB := ReferenceLaws.blur_laws)
            Reference.half_and_half 80
            (convert_RGB Reference.half_and_half)
            (mkImage 4 4 [0; 0; 255; 255;  0; 0; 255; 255;
                          0; 0; 255; 255;  0; 0; 255; 255]) 2 2);
    [reflexivity | reflexivity | lia | vm_compute; reflexivity].
Defined.

(** C7. The smoother never blurs the colour image. In a run that returns,
    the one filter call has the mask as receiver, and the colour image
    returned is the same under any other blur implementation and radius;
    with an upscale factor of at most 1 the image returned is the very image
    the smoother was given, whatever the radius. *)
Theorem smoother_blurs_mask_only {P} {RP : Resizer P} {RL : Resizer L}
    (B1 B2 : Blurrer) (img : Image P) (mask : Image L) (u : Z) (r1 r2 : float)
    (img1 img2 : Image P) (mask1 mask2 : Image L) (log1 log2 : list (Call P)) :
  smooth_alpha (B := B1) img mask u r1 = Some ((img1, mask1), log1) ->
  smooth_alpha (B := B2) img mask u r2 = Some ((img2, mask2), log2) ->
  img1 = img2 /\
  (exists m : Image L, List.filter is_filter log1 = [CallFilter (inr m) r1]) /\
  (forall c, c ∈ log1 -> is_filter c = true -> on_color_image c = false) /\
  (u <= 1 -> img1 = img).
Proof.
  intros Hrun1 Hrun2. destruct (Z.ltb_spec 1 u) as [Hlt|Hle].
  - destruct (smooth_alpha_upscaled_inv _ _ _ _ _ _ _ Hlt Hrun1)
      as (a1 & m1 & b1 & Ea1 & Em1 & _ & Ea1' & _ & ->).
    destruct (smooth_alpha_upscaled_inv _ _ _ _ _ _ _ Hlt Hrun2)
      as (a2 & m2 & b2 & Ea2 & Em2 & _ & Ea2' & _ & ->).
    assert (a2 = a1) as -> by congruence.
    split; [congruence|]. split; [by exists m1|]. split; [|lia].
    intros c Hc Hf. repeat (apply elem_of_cons in Hc as [-> | Hc]; [done|]).
    by apply elem_of_nil in Hc.
  - destruct (smooth_alpha_native_inv _ _ _ _ _ _ _ Hle Hrun1) as (-> & _ & ->).
    destruct (smooth_alpha_native_inv _ _ _ _ _ _ _ Hle Hrun2) as (-> & _ & _).
    split; [done|]. split; [by exists mask|]. split; [|done].
    intros c Hc Hf. apply elem_of_cons in Hc as [-> | Hc]; [done|].
    by apply elem_of_nil in Hc.
Qed.

Lemma smoother_blurs_mask_only_witness :
  (exists img1 mask1 log1 img2 mask2 log2,
     Reference.smooth Reference.strip Reference.strip_mask 1 2
     = Some ((img1, mask1), log1) /\
     Reference.smooth_no_blur Reference.strip Reference.strip_mask 1 0
     = Some ((img2, mask2), log2) /\
     mask1 <> mask2 /\
     img1 = img2 /\
     (exists m : Image L, List.filter is_filter log1 = [CallFilter (inr m) 2%float]) /\
     (forall c, c ∈ log1 -> is_filter c = true -> on_color_image c = false) /\
     (1 <= 1 -> img1 = Reference.strip)) /\
  (exists img1 mask1 log1 img2 mask2 log2,
     Reference.smooth Reference.strip Reference.strip_mask 2 2
     = Some ((img1, mask1), log1) /\
     Reference.smooth_no_blur Reference.strip Reference.strip_mask 2 0
     = Some ((img2, mask2), log2) /\
     mask1 <> mask2 /\
     img1 = img2 /\
     (exists m : Image L, List.filter is_filter log1 = [CallFilter (inr m) 2%float]) /\
     (forall c, c ∈ log1 -> is_filter c = true -> on_color_image c = false) /\
     (2 <= 1 -> img1 = Reference.strip)).
Proof.
  unfold Reference.smooth, Reference.smooth_no_blur.
  split.
  - do 6 eexists.
    split; [vm_compute; reflexivity|].
    split; [vm_compute; reflexivity|].
    split; [discriminate|].
    eapply (smoother_blurs_mask_only
              (RP := Reference.resize_RGB) (RL := Reference.resize_L)
              Reference.blur Reference.no_blur
              Reference.strip Reference.strip_mask 1 2 0);
      vm_compute; reflexivity.
  - do 6 eexists.
    split; [vm_compute; reflexivity|].
    split; [vm_compute; reflexivity|].
    split; [discriminate|].
    eapply (smoother_blurs_mask_only
              (RP := Reference.resize_RGB) (RL := Reference.resize_L)
              Reference.blur Reference.no_blur
              Reference.strip Reference.strip_mask 2 2 0);
      vm_compute; reflexivity.
Defined.

(** ** The pipeline *)

Lemma is_background_pixel_rgb_of (px : RGBA) (t : Z) :
  is_background_pixel (rgb_of px) t = is_background_pixel px t.
Proof. by destruct px as [[[r g] b] a]. Qed.

(** The mask builder reads the three colour bands only. *)
Lemma make_mask_convert_RGB (img : Image RGBA) (t : Z) :
  make_mask (convert_RGB img) t = make_mask img t.
Proof.
  unfold make_mask. cbn.
  apply for_in_ext. intros y m _.
  apply for_in_ext. intros x m' _.
  change (convert_RGB img)
    with (mkImage (width img) (height img) (rgb_of <$> data img)).
  rewrite getpixel_fmap.
  destruct (getpixel img (x, y)) as [px|]; [cbn | done].
  by rewrite is_background_pixel_rgb_of.
Qed.

Section PipelineFacts.
Context {RP : Resizer RGB} {RL : Resizer L} {B : Blurrer}
        {C : Compositor} {CP : ColorParser} {LB : BlurrerLaws}.

(** With upscale 1, blur 0 and a background colour, the pipeline is a
    pixel-wise map. *)
Lemma main_hard_edges (img : Image RGBA) (t : Z) (r : float)
    (color : string) (c : RGBA) :
  wf_image img -> (r =? 0)%float = true ->
  color <> EmptyString -> getcolor color = Some c ->
  exists log,
    main (mkArgs t 1 r (Some color)) img
    = Some (mkImage (width img) (height img) (cut_out t c <$> data img), log).
Proof.
  intros Hwf Hr Hcolor Hc. unfold main. cbn [tolerance upscale blur bg].
  rewrite make_mask_closed by done. cbn [lift ret bind].
  rewrite smooth_alpha_native by lia. rewrite blur_zero by done.
  unfold lift, bind, ret, putalpha, size.
  cbn [convert_RGB width height data].
  rewrite decide_True by done.
  assert (bg_given (Some color) = Some color) as ->
    by (by destruct color).
  unfold Image_new_RGBA. rewrite Hc. cbn [mbind option_bind].
  unfold alpha_composite, size, Image_new. cbn [fst snd width height data].
  rewrite decide_True by done.
  eexists. do 3 f_equal.
  rewrite zip_with_fmap_l, zip_with_fmap_r, zip_with_diag.
  rewrite zip_with_replicate_l
    by (rewrite length_fmap; red in Hwf; lia).
  rewrite <- list_fmap_compose. apply list_fmap_ext.
  by intros i [[[? ?] ?] ?] _.
Qed.
End PipelineFacts.

(** Two well-formed buffers of one size that agree at every coordinate are
    the same buffer. *)
Lemma image_ext {A} (out ref : Image A) :
  wf_image out -> wf_image ref -> size out = size ref ->
  (forall x y v, getpixel ref (x, y) = Some v -> getpixel out (x, y) = Some v) ->
  out = ref.
Proof.
  destruct out as [w h d], ref as [w' h' d'].
  unfold wf_image, size. cbn [width height data].
  intros Hd Hd' [= <- <-] Hpix.
  f_equal. apply list_eq. intros i.
  destruct (decide (i < w * h)%nat) as [Hi|Hi].
  - assert (Hw : (0 < w)%nat) by nia.
    pose proof (Nat.div_mod_eq i w) as Hdm.
    pose proof (Nat.mod_upper_bound i w ltac:(lia)) as Hx.
    assert (Hy : (i `div` w < h)%nat)
      by (apply Nat.Div0.div_lt_upper_bound; lia).
    destruct (lookup_lt_is_Some_2 d' i) as [v Hv]; [lia|].
    specialize (Hpix (i `mod` w)%nat (i `div` w)%nat v).
    unfold getpixel, in_bounds, offset in Hpix.
    cbn [fst snd width height data] in Hpix.
    rewrite !bool_decide_eq_true_2 in Hpix by done. cbn [andb] in Hpix.
    replace (i `div` w * w + i `mod` w)%nat with i in Hpix by lia.
    by rewrite Hv, Hpix.
  - rewrite !lookup_ge_None_2 by lia. done.
Qed.

(** C6. On a 4 x 4 image, with tolerance 10, upscale 1, blur 0 and
    background "#ffffff", the pipeline returns a full 4 x 4 buffer that
    holds (255, 255, 255), fully opaque, wherever the input holds magenta
    (255, 0, 255), and (255, 0, 0), fully opaque, wherever the input holds
    pure red (255, 0, 0), whatever the opacity of the input pixel; so for an
    image that is half magenta and half red, whatever the layout. *)
Theorem end_to_end_magenta_and_red
    {RP : Resizer RGB} {RL : Resizer L} {B : Blurrer}
    {C : Compositor} {CP : ColorParser}
    {LB : BlurrerLaws} {LC : CompositorLaws} {LCP : ColorParserLaws}
    (img : Image RGBA) :
  wf_image img -> size img = (4, 4)%nat ->
  exists out log,
    main (mkArgs 10 1 0 (Some "#ffffff")) img = Some (out, log) /\
    size out = (4, 4)%nat /\
    wf_image out /\
    forall x y a,
      (getpixel img (x, y) = Some (255, 0, 255, a) ->
       getpixel out (x, y) = Some (255, 255, 255, 255)) /\
      (getpixel img (x, y) = Some (255, 0, 0, a) ->
       getpixel out (x, y) = Some (255, 0, 0, 255)).
Proof.
  intros Hwf Hsize.
  destruct (main_hard_edges img 10 0 "#ffffff" WHITE Hwf)
    as [log Hrun]; [reflexivity | discriminate | apply getcolor_white |].
  eexists _, log. split; [exact Hrun|]. split; [exact Hsize|].
  split.
  { unfold wf_image in *. cbn [data width height]. by rewrite length_fmap. }
  intros x y a. rewrite getpixel_fmap.
  split; intros ->; cbn [fmap option_fmap option_map];
    unfold cut_out, mask_value; cbn.
  - by rewrite over_transparent.
  - rewrite over_opaque; [done | unfold valid_band; lia ..].
Qed.

Lemma end_to_end_magenta_and_red_witness :
  exists log,
    Reference.run (mkArgs 10 1 0 (Some "#ffffff")) Reference.half_and_half
    = Some (mkImage 4 4
              [(255, 255, 255, 255); (255, 255, 255, 255);
               (255, 0, 0, 255); (255, 0, 0, 255);
               (255, 255, 255, 255); (255, 255, 255, 255);
               (255, 0, 0, 255); (255, 0, 0, 255);
               (255, 255, 255, 255); (255, 255, 255, 255);
               (255, 0, 0, 255); (255, 0, 0, 255);
               (255, 255, 255, 255); (255, 255, 255, 255);
               (255, 0, 0, 255); (255, 0, 0, 255)], log).
Proof.
  unfold Reference.run.
  destruct (end_to_end_magenta_and_red
              (RP := Reference.resize_RGB) (RL := Reference.resize_L)
              (B := Reference.blur) (C := Reference.composite)
              (CP := Reference.parse_hex)
              (LB := ReferenceLaws.blur_laws)
              (LC := ReferenceLaws.composite_laws)
              (LCP := ReferenceLaws.parse_hex_laws)
              Reference.half_and_half)
    as (out & log & Hrun & Hsize & Hwf & Hpix); [reflexivity | reflexivity |].
  exists log. rewrite Hrun. do 2 f_equal.
  apply image_ext; [exact Hwf | reflexivity | exact Hsize |].
  intros x y v Hv.
  destruct (Hpix x y 255) as [Hmagenta Hred].
  destruct x as [|[|[|[|x]]]]; destruct y as [|[|[|[|y]]]];
    try discriminate Hv;
    injection Hv as <-;
    first [apply Hmagenta; reflexivity | apply Hred; reflexivity].
Defined.

(** C10. The opacity band of the input never reaches the output: two input
    images of the same size with the same colour bands, whatever their
    opacity values, give the same run of the pipeline under the same
    configuration (the same buffer, or no buffer at all). *)
Theorem input_opacity_ignored
    {RP : Resizer RGB} {RL : Resizer L} {B : Blurrer}
    {C : Compositor} {CP : ColorParser}
    (args : Args) (img1 img2 : Image RGBA) :
  convert_RGB img1 = convert_RGB img2 ->
  main args img1 = main args img2.
Proof.
  intros Hrgb. unfold main.
  rewrite <- (make_mask_convert_RGB img1), <- (make_mask_convert_RGB img2).
  by rewrite Hrgb.
Qed.

Lemma input_opacity_ignored_witness :
  Reference.half_and_half <> Reference.half_and_half_faded /\
  Reference.run (mkArgs 80 2 2 None) Reference.half_and_half
  = Reference.run (mkArgs 80 2 2 None) Reference.half_and_half_faded /\
  is_Some (Reference.run (mkArgs 80 2 2 None) Reference.half_and_half).
Proof.
  split; [discriminate|]. split.
  - unfold Reference.run. apply input_opacity_ignored. reflexivity.
  - vm_compute. by eexists.
Defined.

(** * Further properties of the code *)

(** ** The mask builder *)

Lemma putpixel_binary (m m' : Image L) (xy : nat * nat) (v : L) :
  putpixel m xy v = Some m' -> v = 0 \/ v = 255 ->
  wf_image m /\ Forall (fun c => c = 0 \/ c = 255) (data m) ->
  wf_image m' /\ Forall (fun c => c = 0 \/ c = 255) (data m').
Proof.
  unfold putpixel. destruct (in_bounds m xy); [|done].
  intros [= <-] Hv [Hwf Hall]. split.
  - unfold wf_image in *. cbn [data width height]. by rewrite length_insert.
  - cbn [data]. by apply Forall_insert.
Qed.

(** X1. Whatever mask [make_mask] returns is a full buffer of the size of
    the image that holds no value other than 0 and 255: the mask builder
    introduces no partial transparency. *)
Theorem make_mask_binary {P} `{Pixel P} (img : Image P) (t : Z) (mask : Image L) :
  make_mask img t = Some mask ->
  size mask = size img /\
  wf_image mask /\
  Forall (fun c => c = 0 \/ c = 255) (data mask).
Proof.
  intros Hrun. split; [by eapply make_mask_size|].
  revert Hrun. unfold make_mask. cbn.
  apply (for_in_invariant
           (fun m : Image L =>
              wf_image m /\ Forall (fun c => c = 0 \/ c = 255) (data m))).
  - intros y a a' Hrow Ha. revert Hrow.
    apply (for_in_invariant
             (fun m : Image L =>
                wf_image m /\ Forall (fun c => c = 0 \/ c = 255) (data m)));
      [|done].
    intros x c c' Hbody Hc.
    destruct (getpixel img (x, y)) as [px|]; [cbn in Hbody | done].
    destruct (is_background_pixel px t);
      eapply putpixel_binary; eauto.
  - split.
    + unfold wf_image, Image_new. cbn. apply length_replicate.
    + unfold Image_new. cbn. apply Forall_replicate. by right.
Qed.

Lemma make_mask_binary_witness :
  exists mask,
    make_mask Reference.half_and_half 80 = Some mask /\
    size mask = size Reference.half_and_half /\
    wf_image mask /\
    Forall (fun c => c = 0 \/ c = 255) (data mask).
Proof.
  eexists. split; [vm_compute; reflexivity|].
  apply (make_mask_binary Reference.half_and_half 80). vm_compute. reflexivity.
Defined.

(** X2. The classification is local: overwriting one pixel of a well-formed
    image changes the mask at that coordinate only, to the classification of
    the new pixel. Building the mask after [pixels[x, y] = v] gives the mask
    built before with its pixel (x, y) set to 0 or 255 according to [v]. *)
Theorem make_mask_putpixel {P} `{Pixel P} (img img' : Image P) (t : Z)
    (x y : nat) (v : P) :
  wf_image img -> putpixel img (x, y) v = Some img' ->
  exists mask mask',
    make_mask img t = Some mask /\
    make_mask img' t = Some mask' /\
    putpixel mask (x, y) (if is_background_pixel v t then 0 else 255)
    = Some mask'.
Proof.
  intros Hwf Hput. unfold putpixel in Hput.
  destruct (in_bounds img (x, y)) eqn:Hin; [|done].
  injection Hput as <-.
  assert (Hwf' : wf_image (mkImage (width img) (height img)
                    (<[offset img (x, y) := v]> (data img)))).
  { unfold wf_image in *. cbn [data width height]. by rewrite length_insert. }
  eexists _, _.
  split; [by apply make_mask_closed|].
  split; [by apply make_mask_closed|].
  cbn [width height data]. unfold putpixel.
  assert (in_bounds (mkImage (width img) (height img)
            (mask_value t <$> data img)) (x, y) = true) as -> by exact Hin.
  rewrite list_fmap_insert. reflexivity.
Qed.

Lemma make_mask_putpixel_witness :
  exists mask mask',
    make_mask Reference.half_and_half 10 = Some mask /\
    make_mask (mkImage 4 4 (<[6%nat := Reference.M_]> (data Reference.half_and_half))) 10
    = Some mask' /\
    putpixel mask (2%nat, 1%nat)
      (if is_background_pixel Reference.M_ 10 then 0 else 255) = Some mask' /\
    mask <> mask'.
Proof.
  destruct (make_mask_putpixel Reference.half_and_half
              (mkImage 4 4 (<[6%nat := Reference.M_]> (data Reference.half_and_half)))
              10 2 1 Reference.M_)
    as (mask & mask' & Hm & Hm' & Hput); [reflexivity | reflexivity |].
  exists mask, mask'. repeat split; try assumption.
  intros ->. vm_compute in Hm, Hm'. congruence.
Defined.

Lemma square_le_abs (a t : Z) : a * a <= t * t -> Z.abs a <= Z.abs t.
Proof. intros Hsq. destruct (Z.abs_spec a), (Z.abs_spec t); nia. Qed.

(** X3. The tolerance is a Euclidean radius, between two cubes: a pixel
    classified as background has every band within |t| of the key colour,
    and a pixel whose every band is within k of the key colour is background
    as soon as 3 k² <= t². *)
Theorem background_between_cubes {P} `{Pixel P} (px : P) (t k : Z) :
  (is_background_pixel px t = true ->
   Z.abs (px_0 px - 255) <= Z.abs t /\
   Z.abs (px_1 px - 0) <= Z.abs t /\
   Z.abs (px_2 px - 255) <= Z.abs t) /\
  (Z.abs (px_0 px - 255) <= k -> Z.abs (px_1 px - 0) <= k ->
   Z.abs (px_2 px - 255) <= k -> 3 * (k * k) <= t * t ->
   is_background_pixel px t = true).
Proof.
  split.
  - rewrite is_background_pixel_true. unfold dist2. intros Hd.
    pose proof (Z.square_nonneg (px_0 px - 255)).
    pose proof (Z.square_nonneg (px_1 px - 0)).
    pose proof (Z.square_nonneg (px_2 px - 255)).
    repeat split; apply square_le_abs; lia.
  - intros H0 H1 H2 Hk. apply is_background_pixel_true. unfold dist2.
    assert (Hsq : forall a, Z.abs a <= k -> a * a <= k * k)
      by (intros a Ha; destruct (Z.abs_spec a); nia).
    pose proof (Hsq _ H0). pose proof (Hsq _ H1). pose proof (Hsq _ H2). lia.
Qed.

Lemma background_between_cubes_witness :
  (is_background_pixel (250, 3, 252) 10 = true ->
   Z.abs (250 - 255) <= Z.abs 10 /\
   Z.abs (3 - 0) <= Z.abs 10 /\
   Z.abs (252 - 255) <= Z.abs 10) /\
  is_background_pixel (250, 3, 252) 10 = true.
Proof.
  destruct (background_between_cubes ((250, 3, 252) : RGB) 10 5) as [Hin Hout].
  split; [exact Hin|]. apply Hout; cbn; lia.
Defined.

(** X4. The squared comparison is the comparison of the distance itself: a
    pixel is background exactly when its Euclidean distance to the key
    colour, rounded up to an integer, is at most |t|. *)
Theorem background_iff_distance {P} `{Pixel P} (px : P) (t : Z) :
  is_background_pixel px t = true <-> Z.sqrt_up (dist2 px) <= Z.abs t.
Proof.
  rewrite is_background_pixel_true.
  pose proof (dist2_nonneg px) as Hd.
  pose proof (Z.abs_nonneg t) as Ht.
  rewrite <- (Z.abs_square t).
  destruct (Z.eq_dec (dist2 px) 0) as [-> | Hne].
  - rewrite Z.sqrt_up_0. nia.
  - pose proof (Z.sqrt_up_spec (dist2 px)) as Hs.
    pose proof (Z.sqrt_up_nonneg (dist2 px)) as Hn.
    unfold Z.square in Hs. specialize (Hs ltac:(lia)).
    split; intros Hle; nia.
Qed.

(** ** The smoother *)

(** X5. An upscale factor of at most 1, zero and negative factors included,
    is treated as 1: the run is the run with factor 1, it fails exactly when
    the blur of the mask fails, and when it returns it hands back the very
    image it was given, after no resize call and one blur call, on the mask
    it was given. *)
Theorem smooth_alpha_small_factor {P} {RP : Resizer P} {RL : Resizer L}
    {B : Blurrer} (img : Image P) (mask : Image L) (u : Z) (r : float) :
  u <= 1 ->
  smooth_alpha img mask u r = smooth_alpha img mask 1 r /\
  (smooth_alpha img mask u r = None <-> filter_GaussianBlur mask r = None) /\
  forall img' mask' log,
    smooth_alpha img mask u r = Some ((img', mask'), log) ->
    img' = img /\
    filter_GaussianBlur mask r = Some mask' /\
    List.filter is_resize log = [] /\
    List.filter is_filter log = [CallFilter (inr mask) r].
Proof.
  intros Hu. split; [|split].
  - rewrite (smooth_alpha_native img mask u) by done.
    by rewrite (smooth_alpha_native img mask 1) by lia.
  - rewrite smooth_alpha_native by done.
    by destruct (filter_GaussianBlur mask r).
  - intros img' mask' log Hrun.
    by destruct (smooth_alpha_native_inv _ _ _ _ _ _ _ Hu Hrun) as (-> & -> & ->).
Qed.

Lemma smooth_alpha_small_factor_witness :
  Reference.smooth Reference.strip Reference.strip_mask (-3) 2
  = Reference.smooth Reference.strip Reference.strip_mask 1 2 /\
  (Reference.smooth Reference.strip Reference.strip_mask (-3) 2 = None
   <-> Reference.blur Reference.strip_mask 2%float = None) /\
  forall img' mask' log,
    Reference.smooth Reference.strip Reference.strip_mask (-3) 2
    = Some ((img', mask'), log) ->
    img' = Reference.strip /\
    Reference.blur Reference.strip_mask 2%float = Some mask' /\
    List.filter is_resize log = [] /\
    List.filter is_filter log = [CallFilter (inr Reference.strip_mask) 2%float].
Proof.
  unfold Reference.smooth.
  apply (smooth_alpha_small_factor
           (RP := Reference.resize_RGB) (RL := Reference.resize_L)
           (B := Reference.blur)). lia.
Defined.

(** X6. With an upscale factor u > 1, a run that returns made five library
    calls in this order: image and mask resized to (w u, h u), the blur on
    the upscaled mask, which has size (w u, h u), then the upscaled image
    and the blurred mask resized to (w, h), the size of the input image. *)
Theorem smooth_alpha_call_order {P} {RP : Resizer P} {RL : Resizer L}
    {B : Blurrer} {LP : ResizerLaws P} {LL : ResizerLaws L} {LB : BlurrerLaws}
    (img img' : Image P) (mask mask' : Image L) (u : Z) (r : float)
    (log : list (Call P)) :
  1 < u ->
  smooth_alpha img mask u r = Some ((img', mask'), log) ->
  let w := Z.of_nat (width img) in
  let h := Z.of_nat (height img) in
  exists (img1 : Image P) (mask1 blurred : Image L),
    resize img (w * u, h * u) = Some img1 /\
    resize mask (w * u, h * u) = Some mask1 /\
    Z.of_nat (width mask1) = w * u /\ Z.of_nat (height mask1) = h * u /\
    filter_GaussianBlur mask1 r = Some blurred /\
    resize img1 (w, h) = Some img' /\
    resize blurred (w, h) = Some mask' /\
    log = [CallResize (inl img) (w * u, h * u);
           CallResize (inr mask) (w * u, h * u);
           CallFilter (inr mask1) r;
           CallResize (inl img1) (w, h);
           CallResize (inr blurred) (w, h)].
Proof.
  intros Hu Hrun w h.
  destruct (smooth_alpha_upscaled_inv _ _ _ _ _ _ _ Hu Hrun)
    as (img1 & mask1 & blurred & E1 & E2 & E5 & E3 & E4 & ->).
  pose proof (resize_width _ _ _ E1) as W1.
  pose proof (resize_height _ _ _ E1) as H1.
  pose proof (resize_width _ _ _ E2) as W2.
  pose proof (resize_height _ _ _ E2) as H2.
  cbn [fst snd] in W1, H1, W2, H2. fold w h in W1, H1, W2, H2, E1, E2.
  assert (Hdi : (Z.of_nat (width img1) / u, Z.of_nat (height img1) / u) = (w, h))
    by (by rewrite W1, H1, !Z.div_mul by lia).
  assert (Hdm : (Z.of_nat (width blurred) / u, Z.of_nat (height blurred) / u)
                = (w, h)).
  { rewrite (blur_width _ _ _ E5), (blur_height _ _ _ E5).
    by rewrite W2, H2, !Z.div_mul by lia. }
  rewrite Hdi in E3 |- *. rewrite Hdm in E4 |- *.
  by exists img1, mask1, blurred.
Qed.

Lemma smooth_alpha_call_order_witness :
  exists (img' img1 : Image RGB) (mask' mask1 blurred : Image L) log,
    Reference.smooth Reference.strip Reference.strip_mask 3 2
    = Some ((img', mask'), log) /\
    Z.of_nat (width mask1) = 2 * 3 /\ Z.of_nat (height mask1) = 1 * 3 /\
    Reference.blur mask1 2%float = Some blurred /\
    log = [CallResize (inl Reference.strip) (2 * 3, 1 * 3);
           CallResize (inr Reference.strip_mask) (2 * 3, 1 * 3);
           CallFilter (inr mask1) 2%float;
           CallResize (inl img1) (2, 1);
           CallResize (inr blurred) (2, 1)].
Proof.
  unfold Reference.smooth.
  destruct (@smooth_alpha RGB Reference.resize_RGB Reference.resize_L
              Reference.blur Reference.strip Reference.strip_mask 3 2)
    as [[[img' mask'] log]|] eqn:Hrun;
    [|exfalso; vm_compute in Hrun; discriminate].
  assert (Hu : 1 < 3) by lia.
  destruct (smooth_alpha_call_order
              (LP := ReferenceLaws.resize_RGB_laws)
              (LL := ReferenceLaws.resize_L_laws)
              (LB := ReferenceLaws.blur_laws)
              Reference.strip img' Reference.strip_mask mask' 3 2 log
              Hu Hrun)
    as (img1 & mask1 & blurred & _ & _ & W & H & Hb & _ & _ & Hlog).
  exists img', img1, mask', mask1, blurred, log. repeat split; assumption.
Defined.

(** X7. After upscaling, the mask comes back at the size of the image, also
    when it went in at another size; without upscaling the mask keeps its
    own size, so a mask of the wrong size is handed on as it is. *)
Theorem smooth_alpha_mask_size {P} {RP : Resizer P} {RL : Resizer L}
    {B : Blurrer} {LP : ResizerLaws P} {LL : ResizerLaws L} {LB : BlurrerLaws}
    (img img' : Image P) (mask mask' : Image L) (u : Z) (r : float)
    (log : list (Call P)) :
  smooth_alpha img mask u r = Some ((img', mask'), log) ->
  size img' = size img /\
  (1 < u -> size mask' = size img) /\
  (u <= 1 -> size mask' = size mask).
Proof.
  intros Hrun.
  destruct (smooth_alpha_sizes img mask u r img' mask' log Hrun) as [Hi Hm].
  split; [done|]. destruct (Z.ltb_spec 1 u); split; [done | lia | lia | done].
Qed.

Lemma smooth_alpha_mask_size_witness :
  exists img' mask' log,
    Reference.smooth Reference.strip (mkImage 1 1 [255]) 2 0
    = Some ((img', mask'), log) /\
    size img' = (2, 1)%nat /\
    (1 < 2 -> size mask' = (2, 1)%nat) /\
    (2 <= 1 -> size mask' = (1, 1)%nat).
Proof.
  unfold Reference.smooth.
  destruct (@smooth_alpha RGB Reference.resize_RGB Reference.resize_L
              Reference.blur Reference.strip (mkImage 1 1 [255]) 2 0)
    as [[[img' mask'] log]|] eqn:Hrun;
    [|exfalso; vm_compute in Hrun; discriminate].
  exists img', mask', log. split; [reflexivity|].
  exact (smooth_alpha_mask_size
           (LP := ReferenceLaws.resize_RGB_laws)
           (LL := ReferenceLaws.resize_L_laws)
           (LB := ReferenceLaws.blur_laws)
           Reference.strip img' (mkImage 1 1 [255]) mask' 2 0 log Hrun).
Defined.

(** ** The pipeline of [main] *)

Section MainFacts.
Context {RP : Resizer RGB} {RL : Resizer L} {B : Blurrer}
        {C : Compositor} {CP : ColorParser}.

(** The steps of a run of [main] that returns. *)
Lemma main_inv (args : Args) (img out : Image RGBA) (log : list (Call RGB)) :
  main args img = Some (out, log) ->
  exists mask img_smooth mask_smooth cut,
    make_mask img (tolerance args) = Some mask /\
    smooth_alpha (convert_RGB img) mask (upscale args) (blur args)
    = Some ((img_smooth, mask_smooth), log) /\
    putalpha img_smooth mask_smooth = Some cut /\
    match bg_given (bg args) with
    | Some color =>
        exists back, Image_new_RGBA (size cut) color = Some back /\
                     alpha_composite back cut = Some out
    | None => out = cut
    end.
Proof.
  unfold main.
  destruct (make_mask img (tolerance args)) as [mask|];
    cbn [lift ret bind]; [|done].
  destruct (smooth_alpha _ mask _ _) as [[[img_s mask_s] slog]|] eqn:Hs;
    cbn [lift ret bind]; [|done].
  destruct (putalpha img_s mask_s) as [cut|] eqn:Hp;
    cbn [lift ret bind]; [|done].
  destruct (bg_given (bg args)) as [color|].
  - destruct (Image_new_RGBA (size cut) color) as [back|] eqn:Hn;
      cbn [lift ret bind]; [|done].
    destruct (alpha_composite back cut) as [res|] eqn:Hc;
      cbn [lift ret bind]; [|done].
    cbn [app]. rewrite !app_nil_r. intros [= <- <-].
    exists mask, img_s, mask_s, cut. repeat split; try done. by exists back.
  - cbn [ret app]. rewrite !app_nil_r. intros [= <- <-].
    by exists mask, img_s, mask_s, cut.
Qed.

Lemma putalpha_size (img : Image RGB) (alpha : Image L) (cut : Image RGBA) :
  putalpha img alpha = Some cut -> size cut = size img.
Proof. unfold putalpha. case_decide; [by intros [= <-] | done]. Qed.

Lemma alpha_composite_size (im1 im2 out : Image RGBA) :
  alpha_composite im1 im2 = Some out -> size out = size im2.
Proof.
  unfold alpha_composite. case_decide as Hs; [|done].
  intros [= <-]. by rewrite <- Hs.
Qed.

(** A run without upscaling, up to the compositing step. *)
Lemma main_native (args : Args) (img : Image RGBA) :
  wf_image img -> upscale args <= 1 ->
  main args img
  = let mask := mkImage (width img) (height img)
                  (mask_value (tolerance args) <$> data img) in
    match filter_GaussianBlur mask (blur args) with
    | None => None
    | Some blurred =>
        match putalpha (convert_RGB img) blurred with
        | None => None
        | Some cut =>
            match bg_given (bg args) with
            | Some color =>
                match Image_new_RGBA (size cut) color with
                | None => None
                | Some back =>
                    match alpha_composite back cut with
                    | None => None
                    | Some out => Some (out, [CallFilter (inr mask) (blur args)])
                    end
                end
            | None => Some (cut, [CallFilter (inr mask) (blur args)])
            end
        end
    end.
Proof.
  intros Hwf Hu. unfold main.
  rewrite make_mask_closed by done. cbn [lift ret bind].
  rewrite smooth_alpha_native by done. cbv zeta.
  destruct (filter_GaussianBlur _ (blur args)) as [blurred|];
    cbn [lift ret bind]; [|done].
  destruct (putalpha _ _) as [cut|]; cbn [lift ret bind app]; [|done].
  destruct (bg_given (bg args)) as [color|]; cbn [lift ret bind app]; [|done].
  destruct (Image_new_RGBA (size cut) color) as [back|];
    cbn [lift ret bind app]; [|done].
  by destruct (alpha_composite back cut); cbn [lift ret bind app].
Qed.
End MainFacts.

(** X8. The pipeline keeps the size of the image: whatever buffer [main]
    returns, with or without a background and at every upscale factor and
    blur radius, has the width and height of the input. *)
Theorem main_keeps_size
    {RP : Resizer RGB} {RL : Resizer L} {B : Blurrer}
    {C : Compositor} {CP : ColorParser}
    {LP : ResizerLaws RGB} {LL : ResizerLaws L} {LB : BlurrerLaws}
    (args : Args) (img out : Image RGBA) (log : list (Call RGB)) :
  main args img = Some (out, log) -> size out = size img.
Proof.
  intros Hrun.
  destruct (main_inv _ _ _ _ Hrun)
    as (mask & img_s & mask_s & cut & Hm & Hs & Hp & Hbg).
  assert (Hcut : size cut = size img).
  { rewrite (putalpha_size _ _ _ Hp).
    by destruct (smooth_alpha_sizes _ _ _ _ _ _ _ Hs) as [-> _]. }
  destruct (bg_given (bg args)) as [color|]; [|by subst].
  destruct Hbg as (back & _ & Hc).
  by rewrite (alpha_composite_size _ _ _ Hc).
Qed.

Lemma main_keeps_size_witness :
  exists out log,
    Reference.run (mkArgs 80 2 2 (Some "#102030")) Reference.half_and_half
    = Some (out, log) /\
    size out = (4, 4)%nat.
Proof.
  unfold Reference.run.
  do 2 eexists. split; [vm_compute; reflexivity|].
  eapply (main_keeps_size
            (RP := Reference.resize_RGB) (RL := Reference.resize_L)
            (B := Reference.blur)
            (C := Reference.composite) (CP := Reference.parse_hex)
            (LP := ReferenceLaws.resize_RGB_laws)
            (LL := ReferenceLaws.resize_L_laws)
            (LB := ReferenceLaws.blur_laws)
            (mkArgs 80 2 2 (Some "#102030")) Reference.half_and_half).
  vm_compute. reflexivity.
Defined.

(** X9. A background colour the parser rejects makes the whole run fail,
    whatever the image and the other options: no buffer is returned. *)
Theorem main_bad_color
    {RP : Resizer RGB} {RL : Resizer L} {B : Blurrer}
    {C : Compositor} {CP : ColorParser}
    (args : Args) (img : Image RGBA) (color : string) :
  bg args = Some color -> color <> EmptyString -> getcolor color = None ->
  main args img = None.
Proof.
  intros Hbg Hne Hparse.
  destruct (main args img) as [[out log]|] eqn:Hrun; [exfalso | done].
  destruct (main_inv _ _ _ _ Hrun) as (_ & _ & _ & cut & _ & _ & _ & Hstep).
  rewrite Hbg in Hstep.
  assert (bg_given (Some color) = Some color) as Hg by (by destruct color).
  rewrite Hg in Hstep. destruct Hstep as (back & Hnew & _).
  unfold Image_new_RGBA in Hnew. by rewrite Hparse in Hnew.
Qed.

Lemma main_bad_color_witness :
  Reference.run (mkArgs 80 2 2 (Some "#12345")) Reference.half_and_half = None.
Proof.
  unfold Reference.run.
  apply (main_bad_color _ _ "#12345"); [reflexivity | discriminate | reflexivity].
Defined.

Module ReferenceBufferLaws.
Import Reference.

#[export] Instance blur_buffer_laws : BlurrerBufferLaws.
Proof.
  split. intros m r m'. unfold filter_GaussianBlur, blur.
  destruct (r =? 0)%float; [by intros [= <-]|].
  destruct (is_nan r || is_infinity r); [done|].
  intros [= <-] Hwf.
  unfold wf_image, box3 in *. cbn [data width height].
  by rewrite length_imap.
Qed.
End ReferenceBufferLaws.

Lemma zip_with_rgb_mask (t : Z) (l : list RGBA) :
  zip_with (fun '(r, g, b) a => (r, g, b, a)) (rgb_of <$> l) (mask_value t <$> l)
  = keyed t <$> l.
Proof.
  rewrite zip_with_fmap_l, zip_with_fmap_r, zip_with_diag.
  apply list_fmap_ext. by intros i [[[? ?] ?] ?] _.
Qed.

(** X10. A run with upscale at most 1, blur radius 0 and no background (the
    option omitted, or given as the empty string) is a hard cut-out: it
    returns a buffer of the size of the input in which every pixel keeps its
    three colour bands and has opacity 0 where the pixel is within the
    tolerance of the key colour and 255 elsewhere. The input opacity is
    replaced, not combined. *)
Theorem main_hard_cutout
    {RP : Resizer RGB} {RL : Resizer L} {B : Blurrer}
    {C : Compositor} {CP : ColorParser} {LB : BlurrerLaws}
    (img : Image RGBA) (t u : Z) (r : float) (b : option string) :
  wf_image img -> u <= 1 -> (r =? 0)%float = true ->
  b = None \/ b = Some EmptyString ->
  exists out log,
    main (mkArgs t u r b) img = Some (out, log) /\
    size out = size img /\
    forall x y px,
      getpixel img (x, y) = Some px ->
      getpixel out (x, y)
      = Some (px_0 px, px_1 px, px_2 px,
              if is_background_pixel px t then 0 else 255).
Proof.
  intros Hwf Hu Hr Hb.
  rewrite main_native by done. cbv zeta. cbn [tolerance blur bg upscale].
  rewrite blur_zero by done.
  unfold putalpha, size. cbn [convert_RGB width height data].
  rewrite decide_True by done.
  assert (bg_given b = None) as -> by (by destruct Hb as [-> | ->]).
  rewrite zip_with_rgb_mask.
  eexists _, _. split; [reflexivity|]. split; [done|].
  intros x y px Hpx. rewrite getpixel_fmap, Hpx.
  by destruct px as [[[? ?] ?] ?].
Qed.

Lemma main_hard_cutout_witness :
  exists out log,
    Reference.run (mkArgs 10 0 0 (Some EmptyString)) Reference.half_and_half_faded
    = Some (out, log) /\
    size out = size Reference.half_and_half_faded /\
    forall x y px,
      getpixel Reference.half_and_half_faded (x, y) = Some px ->
      getpixel out (x, y)
      = Some (px_0 px, px_1 px, px_2 px,
              if is_background_pixel px 10 then 0 else 255).
Proof.
  unfold Reference.run.
  apply (main_hard_cutout (LB := ReferenceLaws.blur_laws));
    [reflexivity | lia | reflexivity | by right].
Defined.

(** X11. A run with upscale at most 1 and blur radius 0 over a background
    colour never blends: for an image whose bands are bytes, every output
    pixel is either the background colour as parsed, where the input pixel
    is within the tolerance of the key colour, or the input pixel's colour
    bands at full opacity. *)
Theorem main_hard_edges_never_blend
    {RP : Resizer RGB} {RL : Resizer L} {B : Blurrer}
    {C : Compositor} {CP : ColorParser}
    {LB : BlurrerLaws} {LC : CompositorLaws}
    (img : Image RGBA) (t u : Z) (r : float) (color : string) (c : RGBA) :
  wf_image img -> u <= 1 -> (r =? 0)%float = true ->
  color <> EmptyString -> getcolor color = Some c ->
  Forall valid_pixel (data img) ->
  exists out log,
    main (mkArgs t u r (Some color)) img = Some (out, log) /\
    size out = size img /\
    forall x y px,
      getpixel img (x, y) = Some px ->
      getpixel out (x, y)
      = Some (if is_background_pixel px t then c
              else (px_0 px, px_1 px, px_2 px, 255)).
Proof.
  intros Hwf Hu Hr Hcolor Hc Hvalid.
  rewrite main_native by done. cbv zeta. cbn [tolerance blur bg upscale].
  rewrite blur_zero by done.
  unfold putalpha, size. cbn [convert_RGB width height data].
  rewrite decide_True by done.
  assert (bg_given (Some color) = Some color) as -> by (by destruct color).
  unfold Image_new_RGBA. rewrite Hc. cbn [mbind option_bind].
  unfold alpha_composite, size, Image_new. cbn [fst snd width height data].
  rewrite decide_True by done.
  rewrite zip_with_rgb_mask.
  rewrite zip_with_replicate_l by (rewrite length_fmap; red in Hwf; lia).
  rewrite <- list_fmap_compose.
  eexists _, _. split; [reflexivity|]. split; [done|].
  intros x y px Hpx. rewrite getpixel_fmap, Hpx.
  cbn [fmap option_fmap option_map compose].
  assert (Hpv : valid_pixel px).
  { rewrite Forall_lookup in Hvalid. unfold getpixel in Hpx.
    destruct (in_bounds img (x, y)); [eauto | done]. }
  destruct px as [[[pr pg] pb] pa]. destruct Hpv as (H0 & H1 & H2).
  cbn [px_0 px_1 px_2 RGBA_Pixel] in *.
  unfold keyed, mask_value. f_equal.
  destruct (is_background_pixel _ t).
  - apply over_transparent.
  - by apply over_opaque.
Qed.

Lemma main_hard_edges_never_blend_witness :
  exists out log,
    Reference.run (mkArgs 80 (-1) 0 (Some "#102030")) Reference.half_and_half
    = Some (out, log) /\
    size out = size Reference.half_and_half /\
    forall x y px,
      getpixel Reference.half_and_half (x, y) = Some px ->
      getpixel out (x, y)
      = Some (if is_background_pixel px 80 then (16, 32, 48, 255)
              else (px_0 px, px_1 px, px_2 px, 255)).
Proof.
  unfold Reference.run.
  apply (main_hard_edges_never_blend
           (LB := ReferenceLaws.blur_laws) (LC := ReferenceLaws.composite_laws));
    [reflexivity | lia | reflexivity | discriminate | reflexivity |].
  unfold Reference.half_and_half, Reference.M_, Reference.R_. cbn [data].
  repeat constructor; cbn; lia.
Defined.

(** X12. Without upscaling and without a background, the blur reaches the
    opacity only, whatever its radius: in a run that returns, the blur of
    the mask returned a band, and every output pixel has the three colour
    bands of the input pixel at the same coordinate and, as opacity, the
    value of the blurred mask there. *)
Theorem main_blur_reaches_opacity_only
    {RP : Resizer RGB} {RL : Resizer L} {B : Blurrer}
    {C : Compositor} {CP : ColorParser}
    {LB : BlurrerLaws} {LBB : BlurrerBufferLaws}
    (img out : Image RGBA) (t u : Z) (r : float) (b : option string)
    (mask : Image L) (log : list (Call RGB)) :
  wf_image img -> u <= 1 -> b = None \/ b = Some EmptyString ->
  make_mask img t = Some mask ->
  main (mkArgs t u r b) img = Some (out, log) ->
  exists blurred,
    filter_GaussianBlur mask r = Some blurred /\
    size out = size img /\
    forall x y px,
      getpixel img (x, y) = Some px ->
      exists a,
        getpixel blurred (x, y) = Some a /\
        getpixel out (x, y) = Some (px_0 px, px_1 px, px_2 px, a).
Proof.
  intros Hwf Hu Hb Hmask.
  rewrite make_mask_closed in Hmask by done. injection Hmask as <-.
  rewrite main_native by done. cbv zeta. cbn [tolerance blur bg upscale].
  destruct (filter_GaussianBlur _ r) as [blurred|] eqn:Hblur; [|done].
  pose proof (blur_width _ _ _ Hblur) as Hbw.
  pose proof (blur_height _ _ _ Hblur) as Hbh.
  assert (Hbwf : wf_image blurred).
  { apply (blur_wf _ _ _ Hblur). unfold wf_image. cbn [data width height].
    by rewrite length_fmap. }
  cbn [width height] in Hbw, Hbh.
  unfold putalpha, size. cbn [convert_RGB width height data].
  rewrite Hbw, Hbh, decide_True by done.
  assert (bg_given b = None) as -> by (by destruct Hb as [-> | ->]).
  intros [= <- <-]. exists blurred. split; [done|]. split; [done|].
  intros x y px Hpx.
  unfold getpixel, in_bounds, offset in *. cbn [fst snd width height data] in *.
  rewrite Hbw, Hbh.
  destruct (bool_decide (x < width img)%nat && bool_decide (y < height img)%nat)
    eqn:Hin; [|done].
  destruct (lookup_lt_is_Some_2 (data blurred) (y * width img + x)%nat) as [a Ha].
  { apply lookup_lt_Some in Hpx. red in Hwf, Hbwf. rewrite Hbw, Hbh in Hbwf. lia. }
  exists a. split; [done|].
  rewrite lookup_zip_with, list_lookup_fmap, Hpx, Ha. cbn.
  by destruct px as [[[? ?] ?] ?].
Qed.

Lemma main_blur_reaches_opacity_only_witness :
  exists blurred,
    Reference.blur (mkImage 2 1 [0; 255]) 2%float = Some blurred /\
    size (mkImage 2 1 [(255, 0, 255, 85); (10, 20, 30, 170)]) = (2, 1)%nat /\
    forall x y px,
      getpixel (mkImage 2 1 [(255, 0, 255, 7); (10, 20, 30, 9)]) (x, y) = Some px ->
      exists a,
        getpixel blurred (x, y) = Some a /\
        getpixel (mkImage 2 1 [(255, 0, 255, 85); (10, 20, 30, 170)]) (x, y)
        = Some (px_0 px, px_1 px, px_2 px, a).
Proof.
  eapply (main_blur_reaches_opacity_only
            (RP := Reference.resize_RGB) (RL := Reference.resize_L)
            (B := Reference.blur)
            (C := Reference.composite) (CP := Reference.parse_hex)
            (LB := ReferenceLaws.blur_laws)
            (LBB := ReferenceBufferLaws.blur_buffer_laws)
            (mkImage 2 1 [(255, 0, 255, 7); (10, 20, 30, 9)]) _ 80 1 2 None);
    [reflexivity | lia | by left | vm_compute; reflexivity
    | vm_compute; reflexivity].
Defined.
